(** * HamLearn: the pure core of [src/ham-learn/src/App.jsx]

    A shallow embedding of the functions that carry the application's logic:
    the semicolon-delimited parser, the Fisher-Yates shuffle and the quiz
    draw, the flashcard ordering, the quiz scoring, the daily-progress ledger
    with its streak, and the displayed percentages.

    Conventions of the embedding.
    - A JavaScript string is a [string]: one [ascii] per code unit, so the
      text is restricted to code units below 256.  The parser only inspects
      the separators and the white space, every other unit is opaque to it.
    - A JavaScript object used as a dictionary is a [gmap] of its own
      properties, written through [JsObject.assign]; the two
      [localStorage] entries ("hamlearn.progress", "hamlearn.srs") are the
      fields of [Store], [loadJSON]/[saveJSON] being a read and a write of
      the field.
    - A calendar date ("YYYY-MM-DD" key) is its day number since the epoch,
      a [Z].  An instant, the value of a [Date], is the number of
      milliseconds since the epoch, a [Z]; the ISO string written by [mark]
      and read back by [score] denotes it.  The local time of a [Date] is
      taken in a time zone, a parameter of the functions that use it.
    - A write to [localStorage] is taken to succeed.
    - Numbers that hold counts are [N] or [Z]; the two percentages are
      computed on binary64 values ([spec_float], precision 53). *)

From Stdlib Require Import ZArith NArith QArith Qround Ascii String DecimalString
  Floats.SpecFloat.
From stdpp Require Import gmap strings list fin_maps sorting.
From Equations Require Import Equations.

Local Open Scope string_scope.
Local Open Scope list_scope.
Local Open Scope Z_scope.

(** ** JavaScript strings *)

Module JsString.

(** The white space of [String.prototype.trim] among the code units below
    256: TAB, LF, VT, FF, CR, SP and NBSP. *)
Definition is_ws (c : ascii) : bool :=
  let n := nat_of_ascii c in
  ((9 <=? n)%nat && (n <=? 13)%nat) || (n =? 32)%nat || (n =? 160)%nat.

Fixpoint trimStart (s : string) : string :=
  match s with
  | EmptyString => EmptyString
  | String c s' => if is_ws c then trimStart s' else s
  end.

Fixpoint trimEnd (s : string) : string :=
  match s with
  | EmptyString => EmptyString
  | String c s' =>
      match trimEnd s' with
      | EmptyString => if is_ws c then EmptyString else String c EmptyString
      | t => String c t
      end
  end.

(** [s.trim()] *)
Definition trim (s : string) : string := trimEnd (trimStart s).

(** Pushes a unit in front of the first piece of a split. *)
Definition cons_first (c : ascii) (ps : list string) : list string :=
  match ps with
  | [] => [String c EmptyString]
  | p :: ps' => String c p :: ps'
  end.

(** [s.split(";")] for a one-unit separator: every occurrence separates. *)
Fixpoint split (sep : ascii) (s : string) : list string :=
  match s with
  | EmptyString => [EmptyString]
  | String c s' =>
      if Ascii.eqb c sep then EmptyString :: split sep s'
      else cons_first c (split sep s')
  end.

Definition CR : ascii := "013"%char.
Definition LF : ascii := "010"%char.

(** [s.split(/\r?\n/)]: a line feed separates, and takes a carriage return
    that stands right before it along. *)
Fixpoint split_lines (s : string) : list string :=
  match s with
  | EmptyString => [EmptyString]
  | String c s' =>
      if Ascii.eqb c LF then EmptyString :: split_lines s'
      else
        match s' with
        | String c' s'' =>
            if Ascii.eqb c CR && Ascii.eqb c' LF
            then EmptyString :: split_lines s''
            else cons_first c (split_lines s')
        | EmptyString => cons_first c (split_lines s')
        end
  end.

(** [ps.join(sep)] *)
Fixpoint join (sep : ascii) (ps : list string) : string :=
  match ps with
  | [] => EmptyString
  | [p] => p
  | p :: ps' => String.append p (String sep (join sep ps'))
  end.

(** Number of occurrences of a unit. *)
Fixpoint occurrences (c : ascii) (s : string) : nat :=
  match s with
  | EmptyString => 0%nat
  | String c' s' => ((if Ascii.eqb c' c then 1 else 0) + occurrences c s')%nat
  end.

(** [xs.findIndex(p)], -1 when no element satisfies [p]. *)
Fixpoint findIndex_from {A} (p : A -> bool) (xs : list A) (i : Z) : Z :=
  match xs with
  | [] => -1
  | x :: xs' => if p x then i else findIndex_from p xs' (i + 1)
  end.

Definition findIndex {A} (p : A -> bool) (xs : list A) : Z :=
  findIndex_from p xs 0.

End JsString.

(** ** Question records *)

Record QA := mkQA {
  question_id : string;
  question_english : string;
  correct_answer_english : string;
  incorrect_answer_1_english : string;
  incorrect_answer_2_english : string;
  incorrect_answer_3_english : string;
  question_french : string;
  correct_answer_french : string;
  incorrect_answer_1_french : string;
  incorrect_answer_2_french : string;
  incorrect_answer_3_french : string
}.

Global Instance QA_eq_dec : EqDecision QA.
Proof. solve_decision. Defined.

(** ** The parser *)

Module Parser.
Import JsString.

Definition SEMI : ascii := ";"%char.

(** The filter of the first statement: [l.trim().length > 0]. *)
Definition nonblank (l : string) : bool :=
  (0 <? String.length (trim l))%nat.

(** [j >= 0 ? (cols[j]?.trim() ?? "") : ""] *)
Definition cell (cols : list string) (j : Z) : string :=
  if 0 <=? j then
    match cols !! Z.to_nat j with
    | Some c => trim c
    | None => EmptyString
    end
  else EmptyString.

(** The body of the row loop for one line: [None] stands for the
    [continue] and for the skipped [push]. *)
Definition row_of (header : list string) (line : string) : option QA :=
  let idx (name : string) : Z := findIndex (fun h => String.eqb h name) header in
  let mapIdx (f : string) : Z := idx f in
  let cols := split SEMI line in
  if (length cols <? length header)%nat then None
  else
    let row := {|
      question_id := cell cols (mapIdx "question_id");
      question_english := cell cols (mapIdx "question_english");
      correct_answer_english := cell cols (mapIdx "correct_answer_english");
      incorrect_answer_1_english := cell cols (mapIdx "incorrect_answer_1_english");
      incorrect_answer_2_english := cell cols (mapIdx "incorrect_answer_2_english");
      incorrect_answer_3_english := cell cols (mapIdx "incorrect_answer_3_english");
      question_french := cell cols (mapIdx "question_french");
      correct_answer_french := cell cols (mapIdx "correct_answer_french");
      incorrect_answer_1_french := cell cols (mapIdx "incorrect_answer_1_french");
      incorrect_answer_2_french := cell cols (mapIdx "incorrect_answer_2_french");
      incorrect_answer_3_french := cell cols (mapIdx "incorrect_answer_3_french")
    |} in
    if (0 <? String.length (question_id row))%nat then Some row else None.

(** [for (let i = 1; i < lines.length; i++)], with [n] iterations left and
    the accumulator [out]. *)
Fixpoint row_loop (lines header : list string) (n i : nat) (out : list QA)
  : list QA :=
  match n with
  | O => out
  | S n' =>
      let out' :=
        match lines !! i with
        | Some line =>
            match row_of header line with
            | Some row => out ++ [row]
            | None => out
            end
        | None => out
        end in
      row_loop lines header n' (S i) out'
  end.

Definition parseCSVSemicolon (text : string) : list QA :=
  let lines := List.filter nonblank (split_lines text) in
  if (length lines <? 2)%nat then []
  else
    let header := List.map trim (split SEMI (List.nth 0 lines EmptyString)) in
    row_loop lines header (length lines - 1) 1 [].

End Parser.

(** ** Arrays, [Math.random] and [shuffle] *)

Module Shuffle.

(** [Math.floor(r * (i + 1))] for a value [r] returned by [Math.random()].
    The doubles are rationals, so [Q] holds every value [Math.random] can
    return; ECMAScript promises [0 <= r < 1].  The product is taken exactly
    here; rounded to a double it stays below [i + 1] too, and the index is
    among [0 .. i] either way, which is what the proofs use.
    [DoubleShuffle] below takes the draws and the product in binary64. *)
Definition rand_index (r : Q) (i : nat) : nat :=
  Z.to_nat (Qfloor (r * inject_Z (Z.of_nat i + 1))).

(** The contract of [Math.random] for a stream of draws. *)
Definition unit_draws (rng : nat -> Q) : Prop :=
  forall k, (0 <= rng k)%Q /\ (rng k < 1)%Q.

Section Arrays.
Context {A : Type}.

(** [[a[i], a[j]] = [a[j], a[i]]]: the right-hand side is read first, then
    [a[i]] and [a[j]] are written in this order.  Both indices are inside
    the array whenever the draw obeys the contract of [Math.random]; outside
    of it the model leaves the array as it is. *)
Definition swap (a : list A) (i j : nat) : list A :=
  match a !! j, a !! i with
  | Some aj, Some ai => <[j := ai]> (<[i := aj]> a)
  | _, _ => a
  end.

(** [for (let i = a.length - 1; i > 0; i--)], entered at [i]; [k] counts the
    calls of [Math.random] made so far and [rng k] is what call [k] returns. *)
Fixpoint shuffle_loop (rng : nat -> Q) (k : nat) (a : list A) (i : nat)
  : list A :=
  match i with
  | O => a
  | S i' =>
      let j := rand_index (rng k) i in
      shuffle_loop rng (S k) (swap a i j) i'
  end.

(** [shuffle(arr)] on array values. *)
Definition shuffle (rng : nat -> Q) (arr : list A) : list A :=
  let a := arr in
  shuffle_loop rng 0 a (length a - 1).

(** The same function on a store of arrays, where an array is a location:
    [const a = [...arr]] allocates a fresh array, the loop writes into it,
    and its location is returned.  The store is a finite map from the
    locations to the arrays. *)
Definition alloc (h : gmap nat (list A)) (xs : list A)
  : nat * gmap nat (list A) :=
  let l := fresh (dom h) in (l, <[l := xs]> h).

Definition swap_in (h : gmap nat (list A)) (a : nat) (i j : nat)
  : gmap nat (list A) :=
  match h !! a with
  | Some xs => <[a := swap xs i j]> h
  | None => h
  end.

Fixpoint shuffle_loop_in (rng : nat -> Q) (k : nat) (h : gmap nat (list A))
  (a : nat) (i : nat) : gmap nat (list A) :=
  match i with
  | O => h
  | S i' =>
      let j := rand_index (rng k) i in
      shuffle_loop_in rng (S k) (swap_in h a i j) a i'
  end.

(** [None] when [arr] is not an array of the store. *)
Definition shuffle_in (rng : nat -> Q) (h : gmap nat (list A)) (arr : nat)
  : option (nat * gmap nat (list A)) :=
  match h !! arr with
  | None => None
  | Some xs =>
      let '(a, h1) := alloc h xs in
      Some (a, shuffle_loop_in rng 0 h1 a (length xs - 1))
  end.

End Arrays.

End Shuffle.

(** ** The persisted state *)

(** The three buttons of [mark]: 1 (Dur), 2 (Correct), 3 (Facile). *)
Inductive Ease := Hard | Good | Easy.

Definition ease_num (e : Ease) : Z :=
  match e with Hard => 1 | Good => 2 | Easy => 3 end.

Global Instance Ease_eq_dec : EqDecision Ease.
Proof. solve_decision. Defined.

(** An entry of "hamlearn.srs". *)
Record SrsEntry := mkSrsEntry { ease : Ease; lastSeen : Z }.

(** An entry of "hamlearn.progress"; [streak] is optional. *)
Record DailyStat := mkDailyStat { seen : N; correct : N; streak : option N }.

Record Store := mkStore {
  progress : gmap Z DailyStat;
  srs : gmap string SrsEntry
}.

Inductive Lang := FR | EN.

(** ** Flashcards *)

Module Flashcards.

(** [Array.prototype.sort] with a comparator: the order of the result is
    fixed by the language (sorted for the comparator, and stable), the
    algorithm is not.  The model is the insertion sort that has this result:
    an element is put in front of the first element that compares strictly
    greater. *)
Section Sort.
Context {A : Type} (cmp : A -> A -> Z).

Fixpoint insert_stable (x : A) (l : list A) : list A :=
  match l with
  | [] => [x]
  | y :: l' => if 0 <? cmp x y then y :: insert_stable x l' else x :: l
  end.

Fixpoint sort (l : list A) : list A :=
  match l with
  | [] => []
  | x :: l' => insert_stable x (sort l')
  end.

End Sort.

(** The [score] closure of [ordered], on the review state [srs] read when
    [ordered] is computed.  An entry always holds an ease and a non-empty ISO
    string, so [s?.ease ?? 1] and [s?.lastSeen ? ... : 0] take their second
    branch only for a question without entry.  The sum is below 2^53, hence
    exact on doubles. *)
Definition score (srs : gmap string SrsEntry) (q : QA) : Z :=
  let s := srs !! question_id q in
  let ease := match s with Some e => ease_num (ease e) | None => 1 end in
  let last := match s with Some e => lastSeen e | None => 0 end in
  ease * 1000000000 + last.

Definition ordered (srs : gmap string SrsEntry) (qas : list QA) : list QA :=
  if (length qas =? 0)%nat then []
  else sort (fun a b => score srs a - score srs b) qas.

(** The composite review key of a question: its ease (1 when the question
    has no entry) and its last-seen time (0 when it has none). *)
Definition review_key (srs : gmap string SrsEntry) (q : QA) : Z * Z :=
  match srs !! question_id q with
  | Some e => (ease_num (ease e), lastSeen e)
  | None => (1, 0)
  end.

End Flashcards.

(** ** Dates *)

Module JsDate.

Definition msPerDay : Z := 86400000.
Definition msPerHour : Z := 3600000.

(** A time zone: its standard offset from UTC in milliseconds, and when
    daylight saving time, one hour more, is in force, told for an instant
    and told for a local wall-clock time. *)
Record TimeZone := mkTimeZone {
  std_offset : Z;
  dst_at_utc : Z -> bool;
  dst_at_local : Z -> bool
}.

(** ECMAScript's LocalTZA(t, isUTC), LocalTime(t) and UTC(t). *)
Definition LocalTZA (tz : TimeZone) (t : Z) (isUTC : bool) : Z :=
  std_offset tz
  + (if (if isUTC then dst_at_utc tz t else dst_at_local tz t)
     then msPerHour else 0).

Definition LocalTime (tz : TimeZone) (t : Z) : Z := t + LocalTZA tz t true.
Definition UTC (tz : TimeZone) (t : Z) : Z := t - LocalTZA tz t false.

(** [new Date("YYYY-MM-DD")]: a date-only string is midnight UTC. *)
Definition parse_date_only (key : Z) : Z := key * msPerDay.

(** [dt.toISOString().slice(0, 10)]: the UTC date of the instant. *)
Definition iso_date (dt : Z) : Z := dt / msPerDay.

(** [dt.setDate(dt.getDate() - 1)]: with [t = LocalTime(dt)], ECMAScript
    sets the date to [UTC(MakeDate(MakeDay(year, month, date - 1),
    TimeWithinDay(t)))], and [MakeDay] of the day of the month before is one
    day number less: the same wall-clock time one day earlier, read back as
    an instant. *)
Definition setDate_previous (tz : TimeZone) (dt : Z) : Z :=
  UTC tz (LocalTime tz dt - msPerDay).

(** A zone without daylight saving time. *)
Definition no_dst (tz : TimeZone) : Prop :=
  (forall t, dst_at_utc tz t = false) /\ (forall t, dst_at_local tz t = false).

End JsDate.

(** ** JavaScript objects used as dictionaries *)

Module JsObject.

Definition PROTO : string := "__proto__".

(** [o[k] = v] on an object that [JSON.parse] or the literal [{}] gave, as
    [JSON.stringify] writes the object afterwards: its own properties.  The
    assignment creates or updates the own property [k], except for the name
    [__proto__] on an object that has no own property of that name
    ([JSON.parse] can create one, an assignment cannot): there the setter
    inherited from [Object.prototype] runs, the value becomes the prototype
    of [o], and the own properties stay as they were.

    A read [o[k]] of a name without own property gives [undefined] or, for
    the names that [Object.prototype] defines, a value that has none of the
    fields read here and is not a string: the code treats it as it treats
    [undefined], and the model has [None] for all of them. *)
Definition assign {V : Type} (k : string) (v : V) (o : gmap string V)
  : gmap string V :=
  if decide (k = PROTO) then
    match o !! k with
    | Some _ => <[k := v]> o
    | None => o
    end
  else <[k := v]> o.

End JsObject.

(** ** The daily ledger *)

Module Progress.
Import JsDate.

(** A lower bound of the recorded days; with the hour of the date it
    measures the backward walk, which goes back 23 hours at least at each
    turn. *)
Definition earliest (cur : gmap Z DailyStat) : Z :=
  foldr Z.min 0 (map fst (map_to_list cur)).

Definition inspect {T} (a : T) : {b | a = b} := exist _ a eq_refl.

(** The [while (true)] of [bumpProgress], entered with the date [dt] and the
    counter [streak]: it leaves at the first date met that has no entry or
    whose [seen] is 0. *)
Equations? streak_walk (tz : TimeZone) (cur : gmap Z DailyStat) (dt : Z)
  (streak : N) : N
  by wf (Z.to_nat (dt / msPerHour + 1 - earliest cur * 24)) lt :=
  streak_walk tz cur dt streak with inspect (cur !! iso_date dt) := {
    | exist _ None _ := streak
    | exist _ (Some e) H :=
        if (seen e =? 0)%N then streak
        else streak_walk tz cur (setDate_previous tz dt) (streak + 1) }.
Proof.
  assert (earliest cur <= iso_date dt) as Hle.
  { apply elem_of_map_to_list in H. unfold earliest.
    induction (map_to_list cur) as [|[k' e'] l IH]; [by apply elem_of_nil in H|].
    apply elem_of_cons in H as [H|H]; simpl.
    - inversion H; subst. lia.
    - specialize (IH H). lia. }
  assert (iso_date dt = dt / msPerHour / 24) as Hday
    by (unfold iso_date; by rewrite Z.div_div).
  pose proof (Z.mul_div_le (dt / msPerHour) 24 eq_refl) as Hdiv.
  assert (setDate_previous tz dt <= dt + (-23) * msPerHour) as Hprev.
  { unfold setDate_previous, UTC, LocalTime, LocalTZA, msPerDay, msPerHour.
    destruct (dst_at_utc tz dt), (dst_at_local tz _); lia. }
  apply (Z.div_le_mono _ _ msPerHour eq_refl) in Hprev.
  rewrite Z.div_add in Hprev by done. lia.
Qed.

(** [bumpProgress({seen, correct})] on the ledger; [key] is [todayKey()]. *)
Definition bump (tz : TimeZone) (key : Z) (seen' correct' : N)
  (cur : gmap Z DailyStat) : gmap Z DailyStat :=
  let day := default (mkDailyStat 0 0 None) (cur !! key) in
  let day := mkDailyStat (seen day + seen') (correct day + correct') (streak day) in
  let cur := <[key := day]> cur in
  let streak := streak_walk tz cur (parse_date_only key) 0 in
  alter (fun d => mkDailyStat (seen d) (correct d) (Some streak)) key cur.

Definition bumpProgress (tz : TimeZone) (key : Z) (seen' correct' : N)
  (st : Store) : Store :=
  mkStore (bump tz key seen' correct' (progress st)) (srs st).

(** [mark(ease)] for the card [q] shown, at the instant [now] of the day
    [key]. *)
Definition mark (tz : TimeZone) (q : QA) (e : Ease) (now key : Z) (st : Store)
  : Store :=
  let cur := srs st in
  let cur := JsObject.assign (question_id q) (mkSrsEntry e now) cur in
  let st := mkStore (progress st) cur in
  bumpProgress tz key 1 (if 2 <=? ease_num e then 1%N else 0%N) st.

End Progress.

(** ** Quiz *)

Module Quiz.

(** [lang === 'fr' ? q.correct_answer_french : q.correct_answer_english] *)
Definition good (lang : Lang) (q : QA) : string :=
  match lang with
  | FR => correct_answer_french q
  | EN => correct_answer_english q
  end.

(** [shuffle(qas).slice(0, Math.min(nq, qas.length))] *)
Definition pick (rng : nat -> Q) (qas : list QA) (nq : nat) : list QA :=
  take (Nat.min nq (length qas)) (Shuffle.shuffle rng qas).

(** [answers[q.question_id] === good] *)
Definition is_correct (lang : Lang) (answers : gmap string string) (q : QA)
  : bool :=
  bool_decide (answers !! question_id q = Some (good lang q)).

(** The counter of [submit]: [pick.forEach(q => { if (...) correct++ })]. *)
Definition count_correct (lang : Lang) (answers : gmap string string)
  (pick : list QA) : N :=
  foldl (fun correct q => if is_correct lang answers q then (correct + 1)%N
                          else correct) 0%N pick.

Definition submit (tz : JsDate.TimeZone) (lang : Lang)
  (answers : gmap string string) (pick : list QA) (key : Z) (st : Store)
  : Store :=
  let seen := N.of_nat (length pick) in
  let correct := count_correct lang answers pick in
  Progress.bumpProgress tz key seen correct st.

End Quiz.

(** ** Percentages *)

Module Percent.

(** JavaScript numbers are binary64 values. *)
Definition prec : Z := 53.
Definition emax : Z := 1024.

Definition of_int (z : Z) : spec_float := binary_normalize prec emax z 0 false.
Definition fdiv (x y : spec_float) : spec_float := SFdiv prec emax x y.
Definition fmul (x y : spec_float) : spec_float := SFmul prec emax x y.

(** [Math.round(x)]: the integer nearest to [x], the upper one of two
    equally near; [None] for NaN and the infinities. *)
Definition Math_round (x : spec_float) : option Z :=
  match x with
  | S754_zero _ => Some 0
  | S754_finite s m e =>
      let n := if s then Z.neg m else Z.pos m in
      Some (if 0 <=? e then n * 2 ^ e
            else (2 * n + 2 ^ (- e)) / 2 ^ (- e + 1))
  | _ => None
  end.

(** [total ? Math.round((correct / total) * 100) : 0] *)
Definition pct (correct total : Z) : option Z :=
  if total =? 0 then Some 0
  else Math_round (fmul (fdiv (of_int correct) (of_int total)) (of_int 100)).

(** The percentage of [ResultsSummary]. *)
Definition results_pct (lang : Lang) (answers : gmap string string)
  (picked : list QA) : option Z :=
  let total := Z.of_nat (length picked) in
  let correct :=
    foldl (fun acc q => acc + (if Quiz.is_correct lang answers q then 1 else 0))
          0 picked in
  pct correct total.

(** The percentage of a row of the daily history. *)
Definition history_pct (it : DailyStat) : option Z :=
  pct (Z.of_N (correct it)) (Z.of_N (seen it)).

(** round(100 * correct / total) on exact numbers, halves upwards. *)
Definition exact_round (correct total : Z) : Z :=
  Qfloor (inject_Z (100 * correct) / inject_Z total + (1 # 2))%Q.

(** The percentage of one pair is the exact rounding. *)
Definition agree_at (correct total : Z) : bool :=
  match pct correct total with
  | Some v => v =? exact_round correct total
  | None => false
  end.

(** The percentage of one pair is the exact rounding, or the integer below
    it when 100 * correct / total lies halfway between two integers. *)
Definition near_at (correct total : Z) : bool :=
  match pct correct total with
  | Some v =>
      (v =? exact_round correct total)
      || ((v =? exact_round correct total - 1)
          && (200 * correct mod total =? 0)
          && negb (100 * correct mod total =? 0))
  | None => false
  end.

(** A check of every [correct <= total] with [total] among [1 .. bound]. *)
Definition all_upto (check : Z -> Z -> bool) (bound : Z) : bool :=
  forallb (fun total =>
    forallb (fun correct => check correct total) (seqZ 0 (total + 1)))
    (seqZ 1 bound).

End Percent.

(** ** The application: section filter and study events *)

Module App.

(** [filtered]: [section ? qas.filter(q => q.question_id.startsWith(section)) : qas] *)
Definition filtered (section : string) (qas : list QA) : list QA :=
  match section with
  | EmptyString => qas
  | _ => List.filter (fun q => String.prefix section (question_id q)) qas
  end.

(** The two events that record progress. *)
Inductive Event :=
  | Grade (q : QA) (e : Ease) (now : Z)
  | Submit (lang : Lang) (answers : gmap string string) (pick : list QA).

(** What an event does to the persisted state on the day [key], in the
    time zone [tz] of the browser. *)
Definition step (tz : JsDate.TimeZone) (key : Z) (ev : Event) (st : Store)
  : Store :=
  match ev with
  | Grade q e now => Progress.mark tz q e now key st
  | Submit lang answers pick => Quiz.submit tz lang answers pick key st
  end.

End App.

(** ** The streak as the specification words it *)

Module LedgerSpec.

(** A day counts when it has a recorded entry with at least one item seen. *)
Definition active (cur : gmap Z DailyStat) (d : Z) : Prop :=
  exists e, cur !! d = Some e /\ (1 <= seen e)%N.

(** [n] is the number of consecutive days ending at [today], inclusive, that
    count: the [n] days up to [today] count and the day before them does
    not. *)
Definition consecutive_days (cur : gmap Z DailyStat) (today : Z) (n : N) : Prop :=
  (forall i, 0 <= i < Z.of_N n -> active cur (today - i))
  /\ ~ active cur (today - Z.of_N n).

(** The entry of a day, the counters at 0 when the day has none. *)
Definition entry (cur : gmap Z DailyStat) (d : Z) : DailyStat :=
  default (mkDailyStat 0 0 None) (cur !! d).

End LedgerSpec.

(** ** Sample data *)

Module Samples.

Definition question (id text answer : string) : QA :=
  mkQA id text answer "x" "y" "z" text answer "x" "y" "z".

Definition card_hard : QA := question "B-001-001-001" "q1" "a1".
Definition card_easy : QA := question "B-001-001-002" "q2" "a2".

Definition two_cards : list QA := [card_hard; card_easy].

(** The first card graded "Dur" on 2025-11-01T12:26:40Z, the second graded
    "Facile" 3 * 10^9 ms (about 35 days) before. *)
Definition two_cards_srs : gmap string SrsEntry :=
  <["B-001-001-001" := mkSrsEntry Hard 1762000000000]>
    (<["B-001-001-002" := mkSrsEntry Easy 1759000000000]> ∅).

(** The same cards, graded 10^9 ms (about 12 days) apart. *)
Definition close_cards_srs : gmap string SrsEntry :=
  <["B-001-001-001" := mkSrsEntry Hard 1760000000000]>
    (<["B-001-001-002" := mkSrsEntry Easy 1759000000000]> ∅).

(** A text of five lines and a blank one: the third line has an empty
    question_id, the fifth has one column for a header of two. *)
Definition small_text : string :=
  String.concat (String JsString.LF EmptyString)
    ["question_id;question_english"; "A-1;x"; ";y"; "   "; "B"; "A-2;z"].

(** A text whose two records carry the same question_id. *)
Definition twice_text : string :=
  String.concat (String JsString.LF EmptyString)
    ["question_id;question_english"; "B-001-001-001;one"; "B-001-001-001;two"].

(** A stream of draws in [0, 1): 0, 1/4, 2/4, 3/4, 0, ... *)
Definition quarters (k : nat) : Q := Z.of_nat (k mod 4) # 4.

(** A store with one array, at location 0. *)
Definition one_array : gmap nat (list nat) := {[ 0%nat := [10; 20; 30; 40; 50]%nat ]}.

(** UTC itself, a zone without daylight saving time. *)
Definition utc_zone : JsDate.TimeZone :=
  JsDate.mkTimeZone 0 (fun _ => false) (fun _ => false).

(** America/Toronto in 2026: five hours behind UTC, daylight saving time
    from 2026-03-08 (day 20520) 02:00 local, 07:00 UTC, to 2026-11-01
    (day 20758) 02:00 local, 06:00 UTC. *)
Definition toronto_2026 : JsDate.TimeZone :=
  JsDate.mkTimeZone (-5 * JsDate.msPerHour)
    (fun t => (20520 * JsDate.msPerDay + 7 * JsDate.msPerHour <=? t)
              && (t <? 20758 * JsDate.msPerDay + 6 * JsDate.msPerHour))
    (fun t => (20520 * JsDate.msPerDay + 3 * JsDate.msPerHour <=? t)
              && (t <? 20758 * JsDate.msPerDay + 2 * JsDate.msPerHour)).

(** A ledger with an entry for 2026-10-31 (day 20757) and for 2026-11-02
    (day 20759), and none for 2026-11-01 (day 20758). *)
Definition gap_store : Store :=
  mkStore (<[20759 := mkDailyStat 5 3 (Some 1%N)]>
             (<[20757 := mkDailyStat 4 4 (Some 1%N)]> ∅))
          ∅.

(** The instant 2026-11-03T15:00:00Z, on the day 20760 in Toronto. *)
Definition tuesday_morning : Z := 20760 * JsDate.msPerDay + 15 * JsDate.msPerHour.

Definition only (id text : string) : QA :=
  mkQA id text EmptyString EmptyString EmptyString EmptyString EmptyString
       EmptyString EmptyString EmptyString EmptyString.

(** A bank of one question whose identifier is [__proto__]. *)
Definition proto_card : QA := only "__proto__" "x".

Definition proto_text : string :=
  String.append "question_id;question_english"
    (String JsString.LF "__proto__;x").

End Samples.

(** ** The parser as the specification words it *)

Module ParserSpec.
Import JsString Parser.

(** A blank line: nothing but white space. *)
Definition blank (l : string) : Prop := trim l = EmptyString.

Global Instance blank_dec l : Decision (blank l).
Proof. unfold blank. apply _. Defined.

(** The columns of a line: the pieces between its semicolons. *)
Definition columns (line : string) : list string := split SEMI line.

(** The names of the header line. *)
Definition header_names (line : string) : list string :=
  trim <$> columns line.

(** The column of [cols] that stands under the first header named [name],
    without the white space around it; empty when no header has the name. *)
Definition column (header cols : list string) (name : string) : string :=
  match list_find (fun h => h = name) header with
  | Some (j, _) => default EmptyString (trim <$> cols !! j)
  | None => EmptyString
  end.

Definition record_of (header cols : list string) : QA := {|
  question_id := column header cols "question_id";
  question_english := column header cols "question_english";
  correct_answer_english := column header cols "correct_answer_english";
  incorrect_answer_1_english := column header cols "incorrect_answer_1_english";
  incorrect_answer_2_english := column header cols "incorrect_answer_2_english";
  incorrect_answer_3_english := column header cols "incorrect_answer_3_english";
  question_french := column header cols "question_french";
  correct_answer_french := column header cols "correct_answer_french";
  incorrect_answer_1_french := column header cols "incorrect_answer_1_french";
  incorrect_answer_2_french := column header cols "incorrect_answer_2_french";
  incorrect_answer_3_french := column header cols "incorrect_answer_3_french"
|}.

(** One line gives one record, or none when it has fewer columns than the
    header or an empty question_id. *)
Definition record_of_line (header : list string) (line : string) : option QA :=
  if decide (length (columns line) < length header)%nat then None
  else if decide (question_id (record_of header (columns line)) = EmptyString)
       then None
       else Some (record_of header (columns line)).

Definition parse_spec (text : string) : list QA :=
  match filter (fun l => ~ blank l) (split_lines text) with
  | header :: l :: ls => omap (record_of_line (header_names header)) (l :: ls)
  | _ => []
  end.

End ParserSpec.

(** ** The section list of [App] *)

Module Sections.
Import JsString.

Definition DASH : ascii := "-"%char.

(** [\d] and [\w] of a regular expression without the unicode flag. *)
Definition is_digit (c : ascii) : bool :=
  let n := nat_of_ascii c in (48 <=? n)%nat && (n <=? 57)%nat.

Definition is_word (c : ascii) : bool :=
  let n := nat_of_ascii c in
  is_digit c || ((65 <=? n)%nat && (n <=? 90)%nat)
  || ((97 <=? n)%nat && (n <=? 122)%nat) || (n =? 95)%nat.

(** The longest prefix made of units of a class, and what follows it. *)
Fixpoint span (p : ascii -> bool) (s : string) : string * string :=
  match s with
  | EmptyString => (EmptyString, EmptyString)
  | String c s' =>
      if p c then let '(a, b) := span p s' in (String c a, b)
      else (EmptyString, s)
  end.

(** A non-empty run of the class followed by a dash: the run, and what
    follows the dash. *)
Definition run_then_dash (p : ascii -> bool) (s : string)
  : option (string * string) :=
  match span p s with
  | (String c a, String d rest) =>
      if Ascii.eqb d DASH then Some (String c a, rest) else None
  | _ => None
  end.

(** [id.match(/^(\w+-\d+-\d+)-/)], its group 1.  The dash is in neither
    class, so a greedy run can only stop at the first unit outside the class
    and backtracking finds nothing else: each run is the longest one. *)
Definition match_prefix (id : string) : option string :=
  match run_then_dash is_word id with
  | Some (w, r1) =>
      match run_then_dash is_digit r1 with
      | Some (d1, r2) =>
          match run_then_dash is_digit r2 with
          | Some (d2, _) =>
              Some (String.append w (String DASH
                     (String.append d1 (String DASH d2))))
          | None => None
          end
      | None => None
      end
  | None => None
  end.

(** [q.question_id.split("-").slice(0, 3).join("-")] *)
Definition first_three (id : string) : string :=
  join DASH (take 3 (split DASH id)).

(** The prefix that the [forEach] of [sections] adds for a question. *)
Definition section_of (q : QA) : string :=
  match match_prefix (question_id q) with
  | Some m1 => m1
  | None => first_three (question_id q)
  end.

(** [pfx.add(x)] on a [Set], kept in insertion order. *)
Definition set_add (x : string) (pfx : list string) : list string :=
  if bool_decide (x ∈ pfx) then pfx else pfx ++ [x].

(** The comparator of [sort()] without argument: strings by code units. *)
Definition code_unit_cmp (a b : string) : Z :=
  match String.compare a b with
  | Lt => -1
  | Eq => 0
  | Gt => 1
  end.

(** [Array.from(pfx).sort()] after the [forEach]. *)
Definition sections (qas : list QA) : list string :=
  let pfx := foldl (fun pfx q => set_add (section_of q) pfx) [] qas in
  Flashcards.sort code_unit_cmp pfx.

End Sections.

(** ** The toolbar *)

Module Toolbar.

(** [onFilePick], on the bank: the text of the file replaces the bank when
    it parses to one record at least. *)
Definition onFilePick (txt : string) (qas : list QA) : list QA :=
  let parsed := Parser.parseCSVSemicolon txt in
  if (length parsed =? 0)%nat then qas else parsed.

(** [resetProgress]: both entries are removed, and [loadJSON] then gives
    its fallback, the empty object. *)
Definition resetProgress (st : Store) : Store := mkStore ∅ ∅.

End Toolbar.

(** ** The writers of the persisted state *)

Module Persisted.

(** Everything in the application that writes "hamlearn.progress" or
    "hamlearn.srs": the two events that record progress, and the reset of
    the toolbar. *)
Inductive Action :=
  | Progress_event (ev : App.Event)
  | Reset.

Definition run (tz : JsDate.TimeZone) (key : Z) (a : Action) (st : Store)
  : Store :=
  match a with
  | Progress_event ev => App.step tz key ev st
  | Reset => Toolbar.resetProgress st
  end.

End Persisted.

(** ** The state of the flashcard view *)

Module FlashcardsView.

Record View := mkView { index : nat; showAnswer : bool }.

(** [q = ordered[index]] *)
Definition current (ordered : list QA) (v : View) : option QA :=
  ordered !! index v.

(** [mark(ease)] on the view and the persisted state.  The component
    returns before [mark] exists when [ordered] is empty, so there is a
    current card whenever [mark] runs; the view is left alone otherwise. *)
Definition mark (tz : JsDate.TimeZone) (ordered : list QA) (e : Ease)
  (now key : Z) (vs : View * Store) : View * Store :=
  match current ordered vs.1 with
  | Some q =>
      (mkView ((index vs.1 + 1) mod length ordered) false,
       Progress.mark tz q e now key vs.2)
  | None => vs
  end.

End FlashcardsView.

(** ** The state of the quiz view *)

Module QuizView.

(** The options of a question: [shuffle([correct, incorrect_1, incorrect_2,
    incorrect_3])] in the active language. *)
Definition answers_of (lang : Lang) (q : QA) : list string :=
  match lang with
  | FR => [correct_answer_french q; incorrect_answer_1_french q;
           incorrect_answer_2_french q; incorrect_answer_3_french q]
  | EN => [correct_answer_english q; incorrect_answer_1_english q;
           incorrect_answer_2_english q; incorrect_answer_3_english q]
  end.

Definition options (rng : nat -> Q) (lang : Lang) (q : QA) : list string :=
  Shuffle.shuffle rng (answers_of lang q).

(** The [onChange] of a radio button: [{ ...a, [q.question_id]: opt }]. *)
Definition choose (q : QA) (opt : string) (a : gmap string string)
  : gmap string string :=
  <[question_id q := opt]> a.

(** The count of correct answers that [ResultsSummary] displays: its
    [picked.reduce(...)], the one [Percent.results_pct] divides. *)
Definition summary_correct (lang : Lang) (answers : gmap string string)
  (picked : list QA) : Z :=
  foldl (fun acc q => acc + (if Quiz.is_correct lang answers q then 1 else 0))
        0 picked.

End QuizView.

(** ** Checks on the displayed percentages *)

Module PercentChecks.

(** The percentage of one pair lies between 0 and 100, is 100 only when all
    is correct and 0 only when nothing is. *)
Definition sane_at (correct total : Z) : bool :=
  match Percent.pct correct total with
  | Some v =>
      (0 <=? v) && (v <=? 100)
      && Bool.eqb (v =? 100) (correct =? total)
      && Bool.eqb (v =? 0) (correct =? 0)
  | None => false
  end.

End PercentChecks.

(** ** The key of a day *)

(** The ledger above is indexed by the day number; this is the text of the
    key, as [todayKey] writes it and as the dashboard sorts it. *)

Module DateKey.

(** [String(n)] of a natural number: its decimal digits. *)
Definition to_string (n : N) : string :=
  NilZero.string_of_uint (N.to_uint n).

Fixpoint zeros (n : nat) : string :=
  match n with
  | O => EmptyString
  | S n' => String "0"%char (zeros n')
  end.

(** [s.padStart(2, "0")] *)
Definition padStart2 (s : string) : string :=
  String.append (zeros (2 - String.length s)) s.

(** [todayKey], of what [getFullYear], [getMonth] and [getDate] give for
    the current date. *)
Definition todayKey (y m d : N) : string :=
  String.append (to_string y)
    (String "-"%char
       (String.append (padStart2 (to_string (m + 1)%N))
          (String "-"%char (padStart2 (to_string d))))).

(** Over [count] numbers from [lo], each text is of length [len] and comes
    before the text of the next number. *)
Definition rising (f : N -> string) (len : nat) (lo count : N) : bool :=
  forallb
    (fun n =>
       (String.length (f n) =? len)%nat
       && (String.length (f (n + 1)%N) =? len)%nat
       && match String.compare (f n) (f (n + 1)%N) with
          | Lt => true
          | _ => false
          end)
    (map N.of_nat (seq (N.to_nat lo) (N.to_nat count))).

(** The order of two dates given as year, month and day. *)
Definition date_compare (a b : N * N * N) : comparison :=
  match N.compare a.1.1 b.1.1 with
  | Eq =>
      match N.compare a.1.2 b.1.2 with
      | Eq => N.compare a.2 b.2
      | c => c
      end
  | c => c
  end.

End DateKey.

(** ** The shuffle on binary64 draws *)

Module DoubleShuffle.
Import Percent.

(** [Math.floor(x)]; [None] for NaN and the infinities. *)
Definition Math_floor (x : spec_float) : option Z :=
  match x with
  | S754_zero _ => Some 0
  | S754_finite s m e =>
      let n := if s then Z.neg m else Z.pos m in
      Some (if 0 <=? e then n * 2 ^ e else n / 2 ^ (- e))
  | _ => None
  end.

(** What [Math.random()] can return: a binary64 value, of positive sign,
    from +0 up to 1 excluded. *)
Definition unit_double (r : spec_float) : bool :=
  match r with
  | S754_zero false => true
  | S754_finite false m e => bounded prec emax m e && SFltb r (of_int 1)
  | _ => false
  end.

(** [Math.floor(r * (i + 1))], the product rounded to binary64 as the code
    computes it.  [None] stands for a value that is not an index among
    [0 .. i]; the model does not follow the code there. *)
Definition rand_index (r : spec_float) (i : nat) : option nat :=
  match Math_floor (fmul r (of_int (Z.of_nat i + 1))) with
  | Some j =>
      if (0 <=? j) && (j <=? Z.of_nat i) then Some (Z.to_nat j) else None
  | None => None
  end.

Section Arrays.
Context {A : Type}.

(** The loop of [shuffle], as [Shuffle.shuffle_loop], on binary64 draws. *)
Fixpoint shuffle_loop (draws : nat -> spec_float) (k : nat) (a : list A)
  (i : nat) : option (list A) :=
  match i with
  | O => Some a
  | S i' =>
      match rand_index (draws k) i with
      | Some j => shuffle_loop draws (S k) (Shuffle.swap a i j) i'
      | None => None
      end
  end.

Definition shuffle (draws : nat -> spec_float) (arr : list A)
  : option (list A) :=
  let a := arr in
  shuffle_loop draws 0 a (length a - 1).

End Arrays.

(** A draw on which the loop, at [i], picks the index [j]: the least
    multiple of [2 ^ - k] whose product by [i + 1] reaches [j], for [k] the
    number of bits of [i]. *)
Definition draw_for (i j : nat) : spec_float :=
  let k := Z.log2_up (Z.of_nat i + 1) in
  binary_normalize prec emax
    ((Z.of_nat j * 2 ^ k + Z.of_nat i) / (Z.of_nat i + 1)) (- k) false.

Definition reach_at (i j : nat) : bool :=
  unit_double (draw_for i j)
  && bool_decide (rand_index (draw_for i j) i = Some j).

(** Every index is picked by its draw, for the places up to [bound]. *)
Definition reach_upto (bound : nat) : bool :=
  forallb (fun i => forallb (reach_at i) (seq 0 (S i))) (seq 0 (S bound)).

End DoubleShuffle.

(** * Proofs *)

(** ** Splitting *)

Section SplitFacts.
Import JsString.

Lemma split_nonempty sep s : split sep s <> [].
Proof.
  destruct s as [|c s]; simpl; [done|].
  destruct (Ascii.eqb c sep); [done|].
  destruct (split sep s); done.
Qed.

Lemma length_cons_first c ps : ps <> [] -> length (cons_first c ps) = length ps.
Proof. by destruct ps. Qed.

Lemma join_cons_first sep c ps :
  ps <> [] -> join sep (cons_first c ps) = String c (join sep ps).
Proof. destruct ps as [|p [|q ps]]; done. Qed.

Lemma length_split sep s : length (split sep s) = S (occurrences sep s).
Proof.
  induction s as [|c s IH]; simpl; [done|].
  destruct (Ascii.eqb c sep); simpl; [by rewrite IH|].
  rewrite length_cons_first; [done | apply split_nonempty].
Qed.

Lemma join_split sep s : join sep (split sep s) = s.
Proof.
  induction s as [|c s IH]; simpl; [done|].
  destruct (Ascii.eqb c sep) eqn:E.
  - apply Ascii.eqb_eq in E as ->. simpl.
    destruct (split sep s) eqn:Es; [by apply split_nonempty in Es|].
    by rewrite IH.
  - rewrite join_cons_first; [by rewrite IH | apply split_nonempty].
Qed.

Lemma split_pieces_free sep s :
  Forall (fun p => occurrences sep p = 0%nat) (split sep s).
Proof.
  induction s as [|c s IH]; simpl.
  - by constructor.
  - destruct (Ascii.eqb c sep) eqn:E; [by constructor|].
    destruct (split sep s) as [|p ps]; simpl.
    + constructor; [|done]. simpl. by rewrite E.
    + inversion IH; subst. constructor; [|done]. simpl. by rewrite E.
Qed.

End SplitFacts.

(** ** The row loop is a map over the lines after the header *)

Section ParserFacts.
Import JsString Parser ParserSpec.

Lemma row_loop_omap lines header n i out :
  row_loop lines header n i out
  = out ++ omap (row_of header) (take n (drop i lines)).
Proof.
  revert i out. induction n as [|n IH]; intros i out; simpl.
  - by rewrite app_nil_r.
  - rewrite IH. destruct (lines !! i) as [line|] eqn:E.
    + rewrite (drop_S _ _ _ E). simpl.
      destruct (row_of header line); simpl; [by rewrite <- app_assoc|done].
    + rewrite (drop_ge lines i) by (by apply lookup_ge_None).
      rewrite (drop_ge lines (S i)) by (apply lookup_ge_None in E; lia).
      by rewrite take_nil.
Qed.

Lemma findIndex_from_find (header : list string) name i :
  findIndex_from (fun h => String.eqb h name) header i
  = match list_find (fun h => h = name) header with
    | Some (j, _) => i + Z.of_nat j
    | None => -1
    end.
Proof.
  revert i. induction header as [|h hs IH]; intros i; simpl; [done|].
  destruct (String.eqb_spec h name) as [->|Hne].
  - rewrite decide_True by done. simpl. lia.
  - rewrite decide_False by done. rewrite IH.
    destruct (list_find _ hs) as [[j x]|]; simpl; [lia|done].
Qed.

Lemma cell_column header cols name :
  cell cols (findIndex (fun h => String.eqb h name) header)
  = column header cols name.
Proof.
  unfold cell, column, findIndex. rewrite findIndex_from_find.
  destruct (list_find _ header) as [[j x]|]; [|done].
  rewrite Z.add_0_l, Nat2Z.id.
  destruct (Z.leb_spec 0 (Z.of_nat j)); [|lia].
  by destruct (cols !! j).
Qed.

Lemma length_pos_nonempty (s : string) :
  (0 <? String.length s)%nat = bool_decide (s <> EmptyString).
Proof. by destruct s. Qed.

Lemma row_of_record_of_line header line :
  row_of header line = record_of_line header line.
Proof.
  unfold row_of, record_of_line, columns, record_of.
  rewrite !cell_column, length_pos_nonempty.
  destruct (Nat.ltb_spec (length (split SEMI line)) (length header)) as [Hlt|Hge].
  - by rewrite decide_True.
  - rewrite decide_False by lia. simpl.
    destruct (decide (column header (split SEMI line) "question_id" = EmptyString))
      as [E|E].
    + by rewrite bool_decide_false by (by intros ?).
    + by rewrite bool_decide_true.
Qed.

Lemma filter_nonblank (ls : list string) :
  List.filter nonblank ls = filter (fun l => ~ blank l) ls.
Proof.
  induction ls as [|l ls IH]; simpl; [done|].
  rewrite filter_cons. unfold nonblank at 1.
  rewrite length_pos_nonempty, IH.
  destruct (decide (~ blank l)) as [E|E].
  - by rewrite bool_decide_true.
  - by rewrite bool_decide_false.
Qed.

Lemma parse_refines text : parseCSVSemicolon text = parse_spec text.
Proof.
  unfold parseCSVSemicolon, parse_spec. rewrite filter_nonblank.
  destruct (filter _ (split_lines text)) as [|h [|l ls]]; [done..|].
  simpl length. rewrite row_loop_omap. simpl.
  rewrite take_ge by (simpl; lia).
  assert (E : omap (row_of (map trim (split SEMI h))) (l :: ls)
             = omap (record_of_line (header_names h)) (l :: ls)); [|exact E].
  apply list_omap_ext, Forall_Forall2_diag, Forall_forall.
  intros x _. apply row_of_record_of_line.
Qed.

End ParserFacts.

(** ** The sort: a permutation, in order, and stable *)

Section SortFacts.
Import Flashcards.
Context {A : Type} (f : A -> Z).

Let cmp (a b : A) : Z := f a - f b.

Lemma insert_stable_perm x l : insert_stable cmp x l ≡ₚ x :: l.
Proof.
  induction l as [|y l IH]; simpl; [done|].
  destruct (0 <? cmp x y); [|done].
  by rewrite IH, Permutation_swap.
Qed.

Lemma sort_perm l : sort cmp l ≡ₚ l.
Proof.
  induction l as [|x l IH]; simpl; [done|].
  by rewrite insert_stable_perm, IH.
Qed.

Lemma insert_stable_sorted x l :
  StronglySorted (fun a b => f a <= f b) l ->
  StronglySorted (fun a b => f a <= f b) (insert_stable cmp x l).
Proof.
  induction 1 as [|y l Hl IH Hy]; simpl.
  - repeat constructor.
  - unfold cmp at 1. destruct (Z.ltb_spec 0 (f x - f y)) as [Hlt|Hge].
    + constructor; [done|].
      rewrite insert_stable_perm. constructor; [lia|done].
    + constructor; [by constructor|].
      constructor; [lia|].
      eapply Forall_impl; [exact Hy|]. simpl. intros; lia.
Qed.

Lemma sort_sorted l : StronglySorted (fun a b => f a <= f b) (sort cmp l).
Proof.
  induction l as [|x l IH]; simpl; [constructor|].
  by apply insert_stable_sorted.
Qed.

(** Stability, on the elements selected by a predicate that fixes the key:
    insertion only passes elements of a strictly smaller key. *)
Lemma insert_stable_filter (P : A -> Prop) `{!forall x, Decision (P x)} x l :
  (forall a b, P a -> P b -> f a = f b) ->
  filter P (insert_stable cmp x l) = filter P (x :: l).
Proof.
  intros HP. induction l as [|y l IH]; simpl; [done|].
  unfold cmp at 1. destruct (Z.ltb_spec 0 (f x - f y)) as [Hlt|Hge]; [|done].
  rewrite (filter_cons _ y), IH, !(filter_cons _ x), (filter_cons _ y).
  destruct (decide (P x)) as [Hx|Hx]; [|done].
  destruct (decide (P y)) as [Hy|Hy]; [|done].
  specialize (HP x y Hx Hy). lia.
Qed.

Lemma sort_filter (P : A -> Prop) `{!forall x, Decision (P x)} l :
  (forall a b, P a -> P b -> f a = f b) ->
  filter P (sort cmp l) = filter P l.
Proof.
  intros HP. induction l as [|x l IH]; simpl; [done|].
  rewrite insert_stable_filter by done.
  by rewrite !(filter_cons _ x), IH.
Qed.

(** The result is the only list in order that keeps, for each key, the
    elements of this key as the argument has them: a sort that is in order
    and stable returns it, whatever its algorithm. *)
Lemma stable_sorted_unique (l1 l2 : list A) :
  StronglySorted (fun a b => f a <= f b) l1 ->
  StronglySorted (fun a b => f a <= f b) l2 ->
  (forall s, filter (fun x => f x = s) l1 = filter (fun x => f x = s) l2) ->
  l1 = l2.
Proof.
  intros H1. revert l2. induction H1 as [|x l1 Hl1 IH Hx]; intros l2 H2 Hf.
  - destruct l2 as [|y l2]; [done|].
    specialize (Hf (f y)). rewrite filter_nil, filter_cons_True in Hf by done.
    discriminate.
  - destruct H2 as [|y l2 Hl2 Hy].
    { specialize (Hf (f x)). rewrite filter_nil, filter_cons_True in Hf by done.
      discriminate. }
    rewrite Forall_forall in Hx, Hy.
    assert (f y <= f x) as Hyx.
    { pose proof (Hf (f x)) as E. rewrite filter_cons_True in E by done.
      assert (x ∈ filter (fun z => f z = f x) (y :: l2)) as Hin
        by (rewrite <- E; apply list_elem_of_here).
      apply list_elem_of_filter in Hin as [_ Hin].
      apply elem_of_cons in Hin as [->|Hin]; [lia|by apply Hy]. }
    assert (f x <= f y) as Hxy.
    { pose proof (Hf (f y)) as E. rewrite (filter_cons_True _ y) in E by done.
      assert (y ∈ filter (fun z => f z = f y) (x :: l1)) as Hin
        by (rewrite E; apply list_elem_of_here).
      apply list_elem_of_filter in Hin as [_ Hin].
      apply elem_of_cons in Hin as [->|Hin]; [lia|by apply Hx]. }
    assert (x = y) as ->.
    { pose proof (Hf (f x)) as E.
      rewrite !filter_cons_True in E by lia. by inversion E. }
    f_equal. apply IH; [done|]. intros s. specialize (Hf s).
    rewrite !(filter_cons _ y) in Hf.
    destruct (decide (f y = s)); [by inversion Hf|done].
Qed.

End SortFacts.

(** ** Positions in a list *)

Section Positions.
Context {A : Type}.

Lemma sorted_lookup_le (R : relation A) (l : list A) i j a b :
  StronglySorted R l -> (i < j)%nat ->
  l !! i = Some a -> l !! j = Some b -> R a b.
Proof.
  intros Hs. revert i j. induction Hs as [|x l Hl IH Hx]; intros i j Hij Ha Hb.
  - by rewrite lookup_nil in Ha.
  - destruct j as [|j]; [lia|]. simpl in Hb. destruct i as [|i]; simpl in Ha.
    + inversion Ha; subst. rewrite Forall_forall in Hx.
      apply Hx. by eapply list_elem_of_lookup_2.
    + apply (IH i j); [lia|done..].
Qed.

Lemma sorted_weaken (R S : relation A) (l : list A) :
  (forall x y, R x y -> S x y) -> StronglySorted R l -> StronglySorted S l.
Proof.
  intros HRS. induction 1 as [|x l Hl IH Hx]; constructor; [done|].
  eapply Forall_impl; [exact Hx|]. apply HRS.
Qed.

Lemma sublist_pair_lookup (l : list A) a b :
  [a; b] `sublist_of` l ->
  exists i j, (i < j)%nat /\ l !! i = Some a /\ l !! j = Some b.
Proof.
  induction l as [|x l IH]; intros Hs.
  - by apply sublist_nil_r in Hs.
  - apply sublist_cons_r in Hs as [Hs|(k & Hk & Hs)].
    + destruct (IH Hs) as (i & j & ? & ? & ?).
      exists (S i), (S j). split; [lia|done].
    + inversion Hk; subst.
      assert (b ∈ l) as Hb.
      { eapply elem_of_sublist; [|exact Hs]. by apply list_elem_of_singleton. }
      apply list_elem_of_lookup in Hb as [j Hj].
      exists 0%nat, (S j). split; [lia|done].
Qed.

Lemma lookup_pair_sublist (l : list A) i j a b :
  (i < j)%nat -> l !! i = Some a -> l !! j = Some b -> [a; b] `sublist_of` l.
Proof.
  revert i j. induction l as [|x l IH]; intros i j Hij Ha Hb.
  - by rewrite lookup_nil in Ha.
  - destruct j as [|j]; [lia|]. simpl in Hb. destruct i as [|i]; simpl in Ha.
    + inversion Ha; subst. apply sublist_skip.
      apply list_elem_of_lookup_2 in Hb.
      apply list_elem_of_split in Hb as (l1 & l2 & ->).
      apply sublist_inserts_l, sublist_skip, sublist_nil_l.
    + apply sublist_cons. apply (IH i j); [lia|done..].
Qed.

End Positions.

(** ** Flashcard order *)

Section FlashcardFacts.
Import Flashcards.

Lemma score_review_key srs q :
  score srs q = (review_key srs q).1 * 1000000000 + (review_key srs q).2.
Proof. unfold score, review_key. by destruct (srs !! question_id q). Qed.

Lemma ordered_sort srs qas :
  ordered srs qas = sort (fun a b => score srs a - score srs b) qas.
Proof. by destruct qas. Qed.

Lemma ordered_perm srs qas : ordered srs qas ≡ₚ qas.
Proof. rewrite ordered_sort. apply (sort_perm (score srs)). Qed.

Lemma ordered_sorted srs qas :
  StronglySorted (fun a b => score srs a <= score srs b) (ordered srs qas).
Proof. rewrite ordered_sort. apply (sort_sorted (score srs)). Qed.

Lemma ordered_lower_score_first srs qas a b :
  a ∈ qas -> b ∈ qas -> score srs a < score srs b ->
  (exists i j, (i < j)%nat /\ ordered srs qas !! i = Some a
                          /\ ordered srs qas !! j = Some b)
  /\ (forall i j, ordered srs qas !! i = Some a ->
                  ordered srs qas !! j = Some b -> (i < j)%nat).
Proof.
  intros Ha Hb Hlt.
  assert (forall i j, ordered srs qas !! i = Some a ->
                      ordered srs qas !! j = Some b -> (i < j)%nat) as Hall.
  { intros i j Hi Hj. destruct (Nat.lt_trichotomy i j) as [?|[->|Hji]]; [done|..].
    - rewrite Hi in Hj. inversion Hj; subst. lia.
    - pose proof (sorted_lookup_le _ _ _ _ _ _ (ordered_sorted srs qas) Hji Hj Hi).
      simpl in *. lia. }
  split; [|done].
  rewrite <- (ordered_perm srs qas) in Ha, Hb.
  apply list_elem_of_lookup in Ha as [i Hi], Hb as [j Hj].
  exists i, j. eauto.
Qed.

End FlashcardFacts.

(** C1, refuted as stated.  On the two sample cards the card graded "Dur"
    has the strictly lower ease, and the flashcard order puts it after the
    card graded "Facile": the ease is not the dominant term of the key. *)
Lemma ease_not_dominant :
  Samples.card_hard ∈ Samples.two_cards /\
  Samples.card_easy ∈ Samples.two_cards /\
  (Flashcards.review_key Samples.two_cards_srs Samples.card_hard).1
    < (Flashcards.review_key Samples.two_cards_srs Samples.card_easy).1 /\
  Flashcards.ordered Samples.two_cards_srs Samples.two_cards
    = [Samples.card_easy; Samples.card_hard] /\
  ~ (exists i j, (i < j)%nat
       /\ Flashcards.ordered Samples.two_cards_srs Samples.two_cards !! i
            = Some Samples.card_hard
       /\ Flashcards.ordered Samples.two_cards_srs Samples.two_cards !! j
            = Some Samples.card_easy).
Proof.
  assert (Flashcards.ordered Samples.two_cards_srs Samples.two_cards
          = [Samples.card_easy; Samples.card_hard]) as E by (vm_compute; reflexivity).
  split; [by apply list_elem_of_here|].
  split; [apply list_elem_of_further, list_elem_of_here|].
  split; [vm_compute; reflexivity|].
  split; [exact E|].
  rewrite E. intros (i & j & Hij & Hi & Hj).
  destruct i as [|[|i]]; simpl in Hi; [discriminate| |discriminate].
  destruct j as [|[|j]]; simpl in Hj; [lia|lia|discriminate].
Qed.

(** C1, amended.  The flashcard order is ascending in the single key
    ease * 10^9 + last-seen (milliseconds; ease 1 and last-seen 0 for a
    question without entry).  Of two questions of the bank, the one with the
    strictly lower ease comes earlier whenever its last-seen time exceeds the
    other's by less than 10^9 ms per level of ease between them. *)
Theorem lower_ease_first_within_window
  (srs : gmap string SrsEntry) (qas : list QA) (a b : QA) :
  a ∈ qas -> b ∈ qas ->
  (Flashcards.review_key srs a).1 < (Flashcards.review_key srs b).1 ->
  (Flashcards.review_key srs a).2 - (Flashcards.review_key srs b).2
    < ((Flashcards.review_key srs b).1 - (Flashcards.review_key srs a).1)
      * 1000000000 ->
  StronglySorted
    (fun x y =>
       (Flashcards.review_key srs x).1 * 1000000000 + (Flashcards.review_key srs x).2
       <= (Flashcards.review_key srs y).1 * 1000000000 + (Flashcards.review_key srs y).2)
    (Flashcards.ordered srs qas)
  /\ (exists i j, (i < j)%nat /\ Flashcards.ordered srs qas !! i = Some a
                             /\ Flashcards.ordered srs qas !! j = Some b)
  /\ (forall i j, Flashcards.ordered srs qas !! i = Some a ->
                  Flashcards.ordered srs qas !! j = Some b -> (i < j)%nat).
Proof.
  intros Ha Hb He Hl. split.
  - eapply sorted_weaken; [|apply ordered_sorted].
    intros x y Hxy. simpl in Hxy. by rewrite !score_review_key in Hxy.
  - apply ordered_lower_score_first; [done..|].
    rewrite !score_review_key. lia.
Qed.

Lemma lower_ease_first_within_window_witness :
  StronglySorted
    (fun x y =>
       (Flashcards.review_key Samples.close_cards_srs x).1 * 1000000000
       + (Flashcards.review_key Samples.close_cards_srs x).2
       <= (Flashcards.review_key Samples.close_cards_srs y).1 * 1000000000
          + (Flashcards.review_key Samples.close_cards_srs y).2)
    (Flashcards.ordered Samples.close_cards_srs Samples.two_cards)
  /\ (exists i j, (i < j)%nat
     /\ Flashcards.ordered Samples.close_cards_srs Samples.two_cards !! i
          = Some Samples.card_hard
     /\ Flashcards.ordered Samples.close_cards_srs Samples.two_cards !! j
          = Some Samples.card_easy)
  /\ (forall i j,
        Flashcards.ordered Samples.close_cards_srs Samples.two_cards !! i
          = Some Samples.card_hard ->
        Flashcards.ordered Samples.close_cards_srs Samples.two_cards !! j
          = Some Samples.card_easy -> (i < j)%nat).
Proof.
  apply (lower_ease_first_within_window Samples.close_cards_srs
           Samples.two_cards Samples.card_hard Samples.card_easy).
  - apply list_elem_of_here.
  - apply list_elem_of_further, list_elem_of_here.
  - vm_compute. reflexivity.
  - vm_compute. reflexivity.
Defined.

(** C8.  The flashcard order is stable.  For every composite review key the
    questions that carry it come in the flashcard order exactly as they come
    in the bank; so two questions of equal key, the first before the second
    in the bank, are found in this order in the flashcard order. *)
Theorem ordered_stable (srs : gmap string SrsEntry) (qas : list QA) :
  (forall k : Z * Z,
     filter (fun q => Flashcards.review_key srs q = k) (Flashcards.ordered srs qas)
     = filter (fun q => Flashcards.review_key srs q = k) qas)
  /\ (forall i j a b,
        (i < j)%nat -> qas !! i = Some a -> qas !! j = Some b ->
        Flashcards.review_key srs a = Flashcards.review_key srs b ->
        exists i' j', (i' < j')%nat
          /\ Flashcards.ordered srs qas !! i' = Some a
          /\ Flashcards.ordered srs qas !! j' = Some b).
Proof.
  assert (forall k : Z * Z,
     filter (fun q => Flashcards.review_key srs q = k) (Flashcards.ordered srs qas)
     = filter (fun q => Flashcards.review_key srs q = k) qas) as Hstable.
  { intros k. rewrite ordered_sort.
    apply (sort_filter (Flashcards.score srs)).
    intros a b Ha Hb. rewrite !score_review_key. congruence. }
  split; [exact Hstable|].
  intros i j a b Hij Ha Hb Hkey.
  apply sublist_pair_lookup.
  set (P := fun q => Flashcards.review_key srs q = Flashcards.review_key srs a).
  transitivity (filter P (Flashcards.ordered srs qas)); [|apply sublist_filter].
  unfold P. rewrite Hstable. fold P.
  pose proof (lookup_pair_sublist _ _ _ _ _ Hij Ha Hb) as Hsub.
  assert (forall l, [a; b] `sublist_of` l -> [a; b] `sublist_of` filter P l) as Hf.
  { clear -Hkey. intros l. induction l as [|x l IH]; intros Hs.
    - by apply sublist_nil_r in Hs.
    - rewrite filter_cons. apply sublist_cons_r in Hs as [Hs|(k & Hk & Hs)].
      + destruct (decide (P x)); [apply sublist_cons|]; by apply IH.
      + inversion Hk; subst. rewrite decide_True by done.
        apply sublist_skip. clear IH.
        induction l as [|y l IH]; [by apply sublist_nil_r in Hs|].
        rewrite filter_cons. apply sublist_cons_r in Hs as [Hs|(k & Hk' & Hs)].
        * destruct (decide (P y)); [apply sublist_cons|]; by apply IH.
        * inversion Hk'; subst. rewrite decide_True by done.
          apply sublist_skip, sublist_nil_l. }
  by apply Hf.
Qed.

Lemma ordered_stable_witness :
  exists i' j', (i' < j')%nat
    /\ Flashcards.ordered ∅ Samples.two_cards !! i' = Some Samples.card_hard
    /\ Flashcards.ordered ∅ Samples.two_cards !! j' = Some Samples.card_easy.
Proof.
  apply (proj2 (ordered_stable ∅ Samples.two_cards) 0%nat 1%nat).
  - lia.
  - reflexivity.
  - reflexivity.
  - vm_compute. reflexivity.
Defined.

(** C3.  The parser is one pass over the lines: the blank lines are dropped,
    fewer than two remaining lines give the empty list, the first remaining
    line is the header, and every later line gives one record or none, the
    lines after it being treated all the same.  A line is cut at every
    semicolon (one more column than semicolons, no column holds one, and
    the columns joined by semicolons are the line again).  A line with fewer
    columns than the header, or with an empty question_id column, gives no
    record, and the result is the one of the text without that line. *)
Theorem parser_single_pass (text : string) :
  let lines := filter (fun l => ~ ParserSpec.blank l) (JsString.split_lines text) in
  Parser.parseCSVSemicolon text = ParserSpec.parse_spec text
  /\ ((length lines < 2)%nat -> Parser.parseCSVSemicolon text = [])
  /\ (forall header line rest,
        lines = header :: line :: rest ->
        Parser.parseCSVSemicolon text
        = omap (ParserSpec.record_of_line (ParserSpec.header_names header))
               (line :: rest))
  /\ (forall line,
        length (ParserSpec.columns line)
        = S (JsString.occurrences Parser.SEMI line)
        /\ Forall (fun c => JsString.occurrences Parser.SEMI c = 0%nat)
                  (ParserSpec.columns line)
        /\ JsString.join Parser.SEMI (ParserSpec.columns line) = line)
  /\ (forall header line,
        (length (ParserSpec.columns line) < length header)%nat
        \/ ParserSpec.column header (ParserSpec.columns line) "question_id"
           = EmptyString ->
        ParserSpec.record_of_line header line = None)
  /\ (forall header before line after,
        ParserSpec.record_of_line header line = None ->
        omap (ParserSpec.record_of_line header) (before ++ line :: after)
        = omap (ParserSpec.record_of_line header) (before ++ after)).
Proof.
  intros lines. pose proof (parse_refines text) as Href.
  split; [exact Href|]. split; [|split; [|split; [|split]]].
  - intros Hlen. rewrite Href. unfold ParserSpec.parse_spec. fold lines.
    destruct lines as [|h [|l ls]]; [done..|simpl in Hlen; lia].
  - intros header line rest Hl. rewrite Href. unfold ParserSpec.parse_spec.
    fold lines. by rewrite Hl.
  - intros line. unfold ParserSpec.columns.
    auto using length_split, split_pieces_free, join_split.
  - intros header line H. unfold ParserSpec.record_of_line.
    destruct (decide (length (ParserSpec.columns line) < length header)%nat);
      [done|].
    destruct H as [H|H]; [lia|]. simpl. by rewrite decide_True.
  - intros header before line after H.
    rewrite !omap_app. simpl. by rewrite H.
Qed.

Lemma parser_single_pass_witness :
  Parser.parseCSVSemicolon Samples.small_text
  = [Samples.only "A-1" "x"; Samples.only "A-2" "z"]
  /\ Parser.parseCSVSemicolon "question_id;question_english" = []
  /\ ParserSpec.record_of_line ["question_id"; "question_english"] ";y" = None
  /\ ParserSpec.record_of_line ["question_id"; "question_english"] "B" = None.
Proof.
  destruct (parser_single_pass Samples.small_text)
    as (_ & _ & Hmap & _ & Hnone & _).
  destruct (parser_single_pass "question_id;question_english")
    as (_ & Hshort & _).
  split; [|split; [|split]].
  - rewrite (Hmap "question_id;question_english" "A-1;x" [";y"; "B"; "A-2;z"]).
    + vm_compute. reflexivity.
    + vm_compute. reflexivity.
  - apply Hshort. vm_compute. lia.
  - apply Hnone. right. vm_compute. reflexivity.
  - apply Hnone. left. vm_compute. lia.
Defined.

(** C7.  The parser does not enforce the uniqueness of the identifiers: a
    text gives two distinct records of the same question_id.  Nothing
    downstream rejects or merges them: the flashcard order of any bank is a
    permutation of the bank, and the section filter selects a question on
    its identifier alone, so it keeps or drops the two together (with no
    section chosen, or with a prefix of their identifier, it keeps both). *)
Theorem duplicate_ids_kept :
  (exists r1 r2,
      Parser.parseCSVSemicolon Samples.twice_text = [r1; r2]
      /\ r1 <> r2 /\ question_id r1 = question_id r2
      /\ App.filtered EmptyString [r1; r2] = [r1; r2]
      /\ App.filtered "B-001" [r1; r2] = [r1; r2])
  /\ (forall srs qas, Flashcards.ordered srs qas ≡ₚ qas)
  /\ (forall section qas,
        App.filtered section qas
        = filter (fun q => String.prefix section (question_id q) = true) qas).
Proof.
  split; [|split].
  - exists (Samples.only "B-001-001-001" "one"),
           (Samples.only "B-001-001-001" "two").
    split; [vm_compute; reflexivity|].
    split; [discriminate|].
    split; [reflexivity|].
    split; vm_compute; reflexivity.
  - apply ordered_perm.
  - intros section qas. unfold App.filtered.
    destruct section as [|c section].
    + induction qas as [|q qas IH]; [done|].
      rewrite filter_cons_True; [by rewrite <- IH | by destruct (question_id q)].
    + induction qas as [|q qas IH]; simpl; [done|].
      rewrite filter_cons, IH.
      destruct (decide (String.prefix (String c section) (question_id q) = true))
        as [E|E].
      * by rewrite E.
      * by apply not_true_is_false in E as ->.
Qed.

(** ** The ledger *)

Section ProgressFacts.
Import JsDate Progress LedgerSpec.

Lemma streak_walk_unfold tz cur dt n :
  streak_walk tz cur dt n
  = match cur !! iso_date dt with
    | None => n
    | Some e =>
        if (seen e =? 0)%N then n
        else streak_walk tz cur (setDate_previous tz dt) (n + 1)
    end.
Proof.
  rewrite streak_walk_equation_1.
  destruct (inspect (cur !! iso_date dt)) as [[e|] H]; simpl; rewrite H;
    reflexivity.
Qed.

Lemma earliest_le (cur : gmap Z DailyStat) k e :
  cur !! k = Some e -> earliest cur <= k.
Proof.
  intros H. apply elem_of_map_to_list in H. unfold earliest.
  induction (map_to_list cur) as [|[k' e'] l IH]; [by apply elem_of_nil in H|].
  apply elem_of_cons in H as [H|H]; simpl.
  - inversion H; subst. lia.
  - specialize (IH H). lia.
Qed.

Lemma iso_date_parse d : iso_date (parse_date_only d) = d.
Proof. unfold iso_date, parse_date_only. by rewrite Z.div_mul. Qed.

(** Without daylight saving time the walk goes from midnight to midnight. *)
Lemma setDate_previous_no_dst tz d :
  no_dst tz -> setDate_previous tz (parse_date_only d) = parse_date_only (d - 1).
Proof.
  intros [Hu Hl].
  unfold setDate_previous, UTC, LocalTime, LocalTZA, parse_date_only.
  rewrite Hu, Hl. lia.
Qed.

(** In such a zone the walk stops, and where: it adds to the counter the
    number of days it found active, and the day before them is not. *)
Lemma streak_walk_spec tz cur d n :
  no_dst tz ->
  exists m : N,
    streak_walk tz cur (parse_date_only d) n = (n + m)%N
    /\ (forall i, 0 <= i < Z.of_N m -> active cur (d - i))
    /\ ~ active cur (d - Z.of_N m).
Proof.
  intros Htz.
  remember (Z.to_nat (d + 1 - earliest cur)) as k eqn:Hk.
  revert d n Hk. induction k as [k IH] using lt_wf_ind. intros d n Hk.
  rewrite streak_walk_unfold, iso_date_parse.
  destruct (cur !! d) as [e|] eqn:E.
  - destruct (N.eqb_spec (seen e) 0) as [Hz|Hnz].
    + exists 0%N. split; [lia|]. split; [intros; lia|].
      rewrite Z.sub_0_r. intros (e' & He' & Hs). rewrite E in He'.
      inversion He'; subst. lia.
    + pose proof (earliest_le _ _ _ E) as Hle.
      rewrite setDate_previous_no_dst by done.
      destruct (IH (Z.to_nat (d - 1 + 1 - earliest cur)) ltac:(lia)
                   (d - 1) (n + 1)%N eq_refl) as (m & Hm & Hact & Hstop).
      exists (m + 1)%N. split; [lia|]. split.
      * intros i Hi. destruct (decide (i = 0)) as [->|Hi0].
        -- rewrite Z.sub_0_r. exists e. split; [done|lia].
        -- replace (d - i) with (d - 1 - (i - 1)) by lia. apply Hact. lia.
      * replace (d - Z.of_N (m + 1)) with (d - 1 - Z.of_N m) by lia. done.
  - exists 0%N. split; [lia|]. split; [intros; lia|].
    rewrite Z.sub_0_r. intros (e' & He' & _). congruence.
Qed.

Lemma consecutive_days_unique cur d n m :
  consecutive_days cur d n -> consecutive_days cur d m -> n = m.
Proof.
  intros [Hn Hn'] [Hm Hm'].
  destruct (N.lt_trichotomy n m) as [Hlt|[->|Hlt]]; [|done|].
  - destruct Hn'. apply Hm. lia.
  - destruct Hm'. apply Hn. lia.
Qed.

Lemma bump_lookup_today tz key s c cur :
  bump tz key s c cur !! key
  = Some (mkDailyStat (seen (entry cur key) + s) (correct (entry cur key) + c)
            (Some (streak_walk tz
                     (<[key := mkDailyStat (seen (entry cur key) + s)
                                  (correct (entry cur key) + c)
                                  (streak (entry cur key))]> cur)
                     (parse_date_only key) 0))).
Proof.
  unfold bump, entry. rewrite lookup_alter_eq, lookup_insert_eq. reflexivity.
Qed.

Lemma bump_lookup_other tz key s c cur d :
  d <> key -> bump tz key s c cur !! d = cur !! d.
Proof.
  intros Hd. unfold bump.
  rewrite lookup_alter_ne, lookup_insert_ne by done. reflexivity.
Qed.

Lemma bump_active tz key s c cur d :
  active (bump tz key s c cur) d
  <-> active (<[key := mkDailyStat (seen (entry cur key) + s)
                        (correct (entry cur key) + c)
                        (streak (entry cur key))]> cur) d.
Proof.
  unfold active. destruct (decide (d = key)) as [->|Hd].
  - rewrite bump_lookup_today, lookup_insert_eq.
    split; intros (e & He & Hs); inversion He; subst; simpl in *; eauto.
  - by rewrite bump_lookup_other, lookup_insert_ne.
Qed.

Lemma bump_streak tz key s c cur :
  no_dst tz ->
  exists e n,
    bump tz key s c cur !! key = Some e /\ streak e = Some n
    /\ consecutive_days (bump tz key s c cur) key n.
Proof.
  intros Htz. rewrite bump_lookup_today.
  set (cur1 := <[key := _]> cur).
  destruct (streak_walk_spec tz cur1 key 0 Htz) as (m & Hm & Hact & Hstop).
  eexists _, _. split; [reflexivity|]. split; [reflexivity|].
  rewrite Hm, N.add_0_l. split.
  - intros i Hi. apply (bump_active tz key s c cur). by apply Hact.
  - intros H. apply Hstop. by apply (bump_active tz key s c cur) in H.
Qed.

(** The property of C2, for the zones without daylight saving time. *)
Lemma streak_counts_consecutive_days_without_dst tz key ev st :
  no_dst tz ->
  exists e n,
    progress (App.step tz key ev st) !! key = Some e
    /\ streak e = Some n
    /\ consecutive_days (progress (App.step tz key ev st)) key n.
Proof. intros Htz. destruct ev; by apply bump_streak. Qed.

Lemma count_correct_filter lang answers pick :
  Quiz.count_correct lang answers pick
  = N.of_nat (length (filter (fun q => answers !! question_id q
                                       = Some (Quiz.good lang q)) pick)).
Proof.
  unfold Quiz.count_correct.
  assert (forall n,
    foldl (fun correct q => if Quiz.is_correct lang answers q
                            then (correct + 1)%N else correct) n pick
    = (n + N.of_nat (length (filter (fun q => answers !! question_id q
                                       = Some (Quiz.good lang q)) pick)))%N) as H.
  { induction pick as [|q pick IH]; intros n; simpl; [lia|].
    rewrite IH, filter_cons. unfold Quiz.is_correct.
    destruct (decide (answers !! question_id q = Some (Quiz.good lang q))).
    - rewrite bool_decide_true by done. simpl. lia.
    - rewrite bool_decide_false by done. lia. }
  by rewrite H.
Qed.

End ProgressFacts.

(** C2, on the code.  In Toronto, on 2026-11-03, with a ledger that has an
    entry for 11-02 and for 10-31 and none for 11-01, a flashcard grade
    stores the streak 3 under today's date.  The consecutive days ending at
    today that have an entry with an item seen are two, 11-03 and 11-02, the
    day 11-01 having no entry: the walk goes from 11-02 to 10-31, because
    [setDate] steps back in local time across the end of daylight saving time
    and the date is read in UTC. *)
Theorem streak_skips_day_at_dst_end :
  let st' := App.step Samples.toronto_2026 20760
               (App.Grade Samples.card_hard Good Samples.tuesday_morning)
               Samples.gap_store in
  progress st' !! 20760 = Some (mkDailyStat 1 1 (Some 3%N))
  /\ progress st' !! 20758 = None
  /\ LedgerSpec.consecutive_days (progress st') 20760 2
  /\ ~ LedgerSpec.consecutive_days (progress st') 20760 3.
Proof.
  intros st'.
  assert (progress st' !! 20760 = Some (mkDailyStat 1 1 (Some 3%N))) as H0
    by (vm_compute; reflexivity).
  assert (progress st' !! 20759 = Some (mkDailyStat 5 3 (Some 1%N))) as H1
    by (vm_compute; reflexivity).
  assert (progress st' !! 20758 = None) as H2 by (vm_compute; reflexivity).
  assert (LedgerSpec.consecutive_days (progress st') 20760 2) as Hc.
  { split.
    - intros i Hi. assert (i = 0 \/ i = 1) as [-> | ->] by lia.
      + eexists. split; [exact H0|]. simpl. lia.
      + eexists. split; [exact H1|]. simpl. lia.
    - intros (e & He & _). change (progress st' !! 20758 = Some e) in He.
      congruence. }
  split; [exact H0|]. split; [exact H2|]. split; [exact Hc|].
  intros Hc'. by pose proof (consecutive_days_unique _ _ _ _ Hc Hc').
Qed.

(** C4.  Submitting a quiz adds, in today's entry, the number of questions
    of the quiz to the seen count and the number of its questions whose
    selected answer is the correct answer in the active language to the
    correct count; the entry of every other date is left as it was. *)
Theorem submit_counts
  (tz : JsDate.TimeZone) (lang : Lang) (answers : gmap string string)
  (pick : list QA) (key : Z) (st : Store) :
  let old := LedgerSpec.entry (progress st) key in
  let new := progress (Quiz.submit tz lang answers pick key st) in
  (exists e,
      new !! key = Some e
      /\ seen e = (seen old + N.of_nat (length pick))%N
      /\ correct e
         = (correct old
            + N.of_nat (length (filter (fun q => answers !! question_id q
                                         = Some (Quiz.good lang q)) pick)))%N)
  /\ (forall d, d <> key -> new !! d = progress st !! d).
Proof.
  intros old new. split.
  - unfold new, Quiz.submit, Progress.bumpProgress. simpl.
    rewrite bump_lookup_today. eexists. split; [reflexivity|]. simpl.
    by rewrite count_correct_filter.
  - intros d Hd. by apply bump_lookup_other.
Qed.

Lemma submit_counts_witness :
  progress (Quiz.submit Samples.toronto_2026 FR ∅ Samples.two_cards 20760
              Samples.gap_store) !! 20759
  = Some (mkDailyStat 5 3 (Some 1%N)).
Proof.
  rewrite (proj2 (submit_counts Samples.toronto_2026 FR ∅ Samples.two_cards
                    20760 Samples.gap_store) 20759).
  - vm_compute. reflexivity.
  - lia.
Defined.

Lemma assign_lookup {V : Type} (k : string) (v : V) (o : gmap string V) :
  k <> JsObject.PROTO -> JsObject.assign k v o !! k = Some v.
Proof.
  intros Hk. unfold JsObject.assign.
  rewrite decide_False by done. apply lookup_insert_eq.
Qed.

Lemma assign_lookup_ne {V : Type} (k k' : string) (v : V) (o : gmap string V) :
  k' <> k -> JsObject.assign k v o !! k' = o !! k'.
Proof.
  intros Hk. unfold JsObject.assign.
  destruct (decide (k = JsObject.PROTO)); [destruct (o !! k)|];
    by rewrite ?lookup_insert_ne.
Qed.

Lemma assign_proto_absent {V : Type} (v : V) (o : gmap string V) :
  o !! JsObject.PROTO = None -> JsObject.assign JsObject.PROTO v o = o.
Proof. intros H. unfold JsObject.assign. by rewrite decide_True, H. Qed.

(** C5, refuted as stated.  Grading is not the only writer of the review
    state: the reset of the toolbar empties it.  And a grade does not always
    set the entry of the card: the parser accepts a question whose
    identifier is [__proto__], and grading it leaves the review state
    without an entry for it. *)
Lemma review_state_written_elsewhere :
  srs (Persisted.run Samples.utc_zone 20760 Persisted.Reset
         (mkStore ∅ Samples.two_cards_srs))
    <> srs (mkStore ∅ Samples.two_cards_srs)
  /\ Parser.parseCSVSemicolon Samples.proto_text = [Samples.proto_card]
  /\ srs (Progress.mark Samples.utc_zone Samples.proto_card Good
            Samples.tuesday_morning 20760 (mkStore ∅ ∅))
       !! question_id Samples.proto_card
     = None.
Proof.
  split; [|split].
  - simpl. intros H.
    assert (Samples.two_cards_srs !! "B-001-001-001" = None) as E
      by (by rewrite <- H).
    vm_compute in E. discriminate.
  - vm_compute. reflexivity.
  - vm_compute. reflexivity.
Qed.

(** C5, amended.  The review state is written by flashcard grading and by
    the reset only: a quiz submission leaves the whole map as it was and the
    reset empties it.  Grading a card with ease [e] at the instant [now]
    leaves the entry of every other identifier as it was, and sets the entry
    of the card to [(e, now)] when its identifier is not [__proto__]. *)
Theorem review_state_frame :
  (forall tz key a st,
      srs (Persisted.run tz key a st) <> srs st ->
      (exists q e now, a = Persisted.Progress_event (App.Grade q e now))
      \/ a = Persisted.Reset)
  /\ (forall tz lang answers pick key st,
        srs (Quiz.submit tz lang answers pick key st) = srs st)
  /\ (forall st, srs (Toolbar.resetProgress st) = ∅)
  /\ (forall tz q e now key st,
        (forall id, id <> question_id q ->
           srs (Progress.mark tz q e now key st) !! id = srs st !! id)
        /\ (question_id q <> JsObject.PROTO ->
            srs (Progress.mark tz q e now key st) !! question_id q
            = Some (mkSrsEntry e now))).
Proof.
  split; [|split; [reflexivity|split; [reflexivity|]]].
  - intros tz key [[q e now|lang answers pick]|] st H.
    + left. by exists q, e, now.
    + by destruct H.
    + by right.
  - intros tz q e now key st. simpl. split.
    + intros id Hid. by apply assign_lookup_ne.
    + apply assign_lookup.
Qed.

Lemma review_state_frame_witness :
  srs (Progress.mark Samples.utc_zone Samples.card_hard Easy
         Samples.tuesday_morning 20760
         (mkStore ∅ Samples.two_cards_srs)) !! "B-001-001-001"
  = Some (mkSrsEntry Easy Samples.tuesday_morning).
Proof.
  apply (proj2 (proj2 (proj2 (proj2 review_state_frame)) Samples.utc_zone
                  Samples.card_hard Easy Samples.tuesday_morning 20760
                  (mkStore ∅ Samples.two_cards_srs))).
  vm_compute. discriminate.
Defined.

(** ** The shuffle *)

Section ShuffleFacts.
Import Shuffle.

(** A draw of [Math.random] gives an index among [0 .. i]. *)
Lemma rand_index_le r i : (r < 1)%Q -> (rand_index r i <= i)%nat.
Proof.
  intros Hr. unfold rand_index.
  assert (Qfloor (r * inject_Z (Z.of_nat i + 1)) < Z.of_nat i + 1); [|lia].
  rewrite Zlt_Qlt.
  eapply Qle_lt_trans; [apply Qfloor_le|].
  apply Qlt_le_trans with (1 * inject_Z (Z.of_nat i + 1))%Q.
  - apply Qmult_lt_compat_r; [|done]. rewrite <- (Zlt_Qlt 0). lia.
  - rewrite Qmult_1_l. apply Qle_refl.
Qed.

Context {A : Type}.
Implicit Types a xs : list A.

Lemma swap_length a i j : length (swap a i j) = length a.
Proof.
  unfold swap. destruct (a !! j), (a !! i); [|done..].
  by rewrite !length_insert.
Qed.

Lemma swap_lookup a i j k :
  (i < length a)%nat -> (j < length a)%nat ->
  swap a i j !! k
  = a !! (if decide (k = j) then i else if decide (k = i) then j else k).
Proof.
  intros Hi Hj. unfold swap.
  destruct (lookup_lt_is_Some_2 a j Hj) as [aj Haj].
  destruct (lookup_lt_is_Some_2 a i Hi) as [ai Hai].
  rewrite Haj, Hai.
  destruct (decide (k = j)) as [->|Hkj].
  - by rewrite list_lookup_insert_eq by (by rewrite length_insert).
  - rewrite list_lookup_insert_ne by done.
    destruct (decide (k = i)) as [->|Hki].
    + by rewrite list_lookup_insert_eq.
    + by rewrite list_lookup_insert_ne.
Qed.

Lemma swap_perm a i j :
  (i < length a)%nat -> (j < length a)%nat -> swap a i j ≡ₚ a.
Proof.
  intros Hi Hj. apply Permutation_inj. split; [apply swap_length|].
  exists (fun k => if decide (k = j) then i
                   else if decide (k = i) then j else k).
  split; [|intros k; by apply swap_lookup].
  intros k1 k2 H. repeat case_decide; congruence.
Qed.

Lemma shuffle_loop_perm rng k a i :
  unit_draws rng -> (i < length a)%nat -> shuffle_loop rng k a i ≡ₚ a.
Proof.
  intros Hr. revert k a. induction i as [|i IH]; intros k a Hi; simpl; [done|].
  pose proof (rand_index_le (rng k) (S i) (proj2 (Hr k))) as Hj.
  rewrite IH by (rewrite swap_length; lia).
  apply swap_perm; lia.
Qed.

Lemma shuffle_perm rng xs : unit_draws rng -> shuffle rng xs ≡ₚ xs.
Proof.
  intros Hr. unfold shuffle. destruct xs as [|x xs]; [done|].
  apply shuffle_loop_perm; [done|simpl; lia].
Qed.

(** The in-place loop, seen from the store. *)
Lemma shuffle_loop_in_store rng k (h : gmap nat (list A)) l ys i :
  h !! l = Some ys ->
  shuffle_loop_in rng k h l i = <[l := shuffle_loop rng k ys i]> h.
Proof.
  revert k h ys. induction i as [|i IH]; intros k h ys Hl; simpl.
  - by rewrite insert_id.
  - unfold swap_in. rewrite Hl.
    rewrite (IH _ _ (swap ys (S i) (rand_index (rng k) (S i))))
      by apply lookup_insert_eq.
    apply insert_insert_eq.
Qed.

Lemma shuffle_in_store rng (h : gmap nat (list A)) arr xs :
  h !! arr = Some xs ->
  shuffle_in rng h arr
  = Some (fresh (dom h), <[fresh (dom h) := shuffle rng xs]> h).
Proof.
  intros Harr. unfold shuffle_in, alloc. rewrite Harr.
  rewrite (shuffle_loop_in_store _ _ _ _ xs) by apply lookup_insert_eq.
  by rewrite insert_insert_eq.
Qed.

End ShuffleFacts.

Section ShuffleMap.
Import Shuffle.
Context {A B : Type} (f : A -> B).

Lemma swap_fmap (a : list A) i j : swap (f <$> a) i j = f <$> swap a i j.
Proof.
  unfold swap. rewrite !list_lookup_fmap.
  destruct (a !! j), (a !! i); simpl; [|done..].
  by rewrite !list_fmap_insert.
Qed.

Lemma shuffle_loop_fmap rng k (a : list A) i :
  shuffle_loop rng k (f <$> a) i = f <$> shuffle_loop rng k a i.
Proof.
  revert k a. induction i as [|i IH]; intros k a; simpl; [done|].
  by rewrite swap_fmap, IH.
Qed.

Lemma shuffle_fmap rng (a : list A) : shuffle rng (f <$> a) = f <$> shuffle rng a.
Proof. unfold shuffle. by rewrite length_fmap, shuffle_loop_fmap. Qed.

End ShuffleMap.

Lemma quarters_unit_draws : Shuffle.unit_draws Samples.quarters.
Proof.
  intros k. unfold Samples.quarters, Qle, Qlt. simpl.
  pose proof (Nat.mod_upper_bound k 4). lia.
Qed.

(** C9.  [shuffle] returns a permutation of its argument and leaves the
    argument alone: the array it returns is a new one, it has the length of
    the argument and the same elements with the same multiplicities, and the
    store holds after the call what it held before, the argument included. *)
Theorem shuffle_permutes {A : Type}
  (rng : nat -> Q) (h : gmap nat (list A)) (arr : nat) (xs : list A) :
  Shuffle.unit_draws rng ->
  h !! arr = Some xs ->
  exists a h',
    Shuffle.shuffle_in rng h arr = Some (a, h')
    /\ h' !! a = Some (Shuffle.shuffle rng xs)
    /\ Shuffle.shuffle rng xs ≡ₚ xs
    /\ length (Shuffle.shuffle rng xs) = length xs
    /\ h !! a = None
    /\ h' !! arr = Some xs
    /\ (forall l, l <> a -> h' !! l = h !! l).
Proof.
  intros Hr Harr. rewrite (shuffle_in_store _ _ _ _ Harr).
  assert (h !! fresh (dom h) = None) as Hfresh
    by apply not_elem_of_dom, is_fresh.
  eexists _, _. split; [reflexivity|].
  split; [apply lookup_insert_eq|].
  split; [by apply shuffle_perm|].
  split; [by apply Permutation_length, shuffle_perm|].
  split; [done|].
  split.
  - rewrite lookup_insert_ne; [done|]. intros E. rewrite E in Hfresh. congruence.
  - intros l Hl. by rewrite lookup_insert_ne.
Qed.

Lemma shuffle_permutes_witness :
  exists a h',
    Shuffle.shuffle_in Samples.quarters Samples.one_array 0%nat = Some (a, h')
    /\ h' !! a = Some (Shuffle.shuffle Samples.quarters [10; 20; 30; 40; 50]%nat)
    /\ Shuffle.shuffle Samples.quarters [10; 20; 30; 40; 50]%nat
       ≡ₚ [10; 20; 30; 40; 50]%nat
    /\ length (Shuffle.shuffle Samples.quarters [10; 20; 30; 40; 50]%nat) = 5%nat
    /\ Samples.one_array !! a = None
    /\ h' !! 0%nat = Some [10; 20; 30; 40; 50]%nat
    /\ (forall l, l <> a -> h' !! l = Samples.one_array !! l).
Proof.
  apply (shuffle_permutes Samples.quarters Samples.one_array 0%nat).
  - exact quarters_unit_draws.
  - reflexivity.
Defined.

(** C6.  The quiz selection is a sample of the bank: it has exactly
    min(n, bank size) questions, and they are the questions found at that
    many pairwise distinct positions of the bank. *)
Theorem pick_is_sample (rng : nat -> Q) (qas : list QA) (n : nat) :
  Shuffle.unit_draws rng ->
  length (Quiz.pick rng qas n) = Nat.min n (length qas)
  /\ exists ps : list nat,
       NoDup ps
       /\ length ps = Nat.min n (length qas)
       /\ Forall2 (fun p q => qas !! p = Some q) ps (Quiz.pick rng qas n).
Proof.
  intros Hr. unfold Quiz.pick.
  set (m := Nat.min n (length qas)).
  set (tagged := zip (seq 0 (length qas)) qas).
  assert (tagged.*1 = seq 0 (length qas)) as Hfst
    by (apply fst_zip; by rewrite length_seq).
  assert (tagged.*2 = qas) as Hsnd by (apply snd_zip; by rewrite length_seq).
  assert (Forall (fun pq => qas !! pq.1 = Some pq.2) tagged) as Htag.
  { apply Forall_forall. intros [p q] Hin.
    apply list_elem_of_lookup in Hin as [i Hi]. unfold tagged in Hi.
    rewrite lookup_zip_with in Hi.
    destruct (seq 0 (length qas) !! i) as [p'|] eqn:Ep; [|done].
    destruct (qas !! i) as [q'|] eqn:Eq; [|done].
    simpl in Hi. injection Hi as <- <-.
    apply lookup_seq in Ep as [-> _]. done. }
  pose proof (shuffle_perm rng tagged Hr) as Hperm.
  assert (Shuffle.shuffle rng qas = (Shuffle.shuffle rng tagged).*2) as Hq
    by (by rewrite <- shuffle_fmap, Hsnd).
  split.
  - rewrite length_take. fold m.
    rewrite (Permutation_length (shuffle_perm rng qas Hr)). unfold m. lia.
  - exists (take m (Shuffle.shuffle rng tagged).*1). split; [|split].
    + eapply sublist_NoDup; [|apply sublist_take].
      rewrite Hperm, Hfst. apply NoDup_seq.
    + rewrite length_take, length_fmap, (Permutation_length Hperm).
      unfold tagged. rewrite length_zip, length_seq. unfold m. lia.
    + rewrite Hq. apply Forall2_take, Forall2_fmap, Forall_Forall2_diag.
      by rewrite Hperm.
Qed.

Lemma pick_is_sample_witness :
  length (Quiz.pick Samples.quarters Samples.two_cards 5) = 2%nat
  /\ exists ps : list nat,
       NoDup ps
       /\ length ps = 2%nat
       /\ Forall2 (fun p q => Samples.two_cards !! p = Some q) ps
            (Quiz.pick Samples.quarters Samples.two_cards 5).
Proof.
  apply (pick_is_sample Samples.quarters Samples.two_cards 5).
  exact quarters_unit_draws.
Defined.

(** ** Percentages *)

Section PercentFacts.
Import Percent.

Lemma forallb_seqZ (p : Z -> bool) m n x :
  forallb p (seqZ m n) = true -> m <= x < m + n -> p x = true.
Proof.
  intros H Hx. rewrite forallb_forall in H. apply H.
  apply list_elem_of_In, elem_of_seqZ. lia.
Qed.

Lemma all_upto_at check bound correct total :
  all_upto check bound = true ->
  0 < total <= bound -> 0 <= correct <= total ->
  check correct total = true.
Proof.
  unfold all_upto. intros H Ht Hc.
  apply (forallb_seqZ _ _ _ total) in H; [|lia].
  by apply (forallb_seqZ _ _ _ correct) in H; [|lia].
Qed.

Lemma agree_upto_39 : all_upto agree_at 39 = true.
Proof. vm_compute. reflexivity. Qed.

Lemma near_upto_200 : all_upto near_at 200 = true.
Proof. vm_compute. reflexivity. Qed.

Lemma pct_exact_upto_39 correct total :
  0 < total <= 39 -> 0 <= correct <= total ->
  pct correct total = Some (exact_round correct total).
Proof.
  intros Ht Hc.
  pose proof (all_upto_at agree_at 39 correct total agree_upto_39 Ht Hc) as H.
  unfold agree_at in H.
  destruct (pct correct total) as [v|]; [|done].
  apply Z.eqb_eq in H. by subst.
Qed.

Lemma pct_near_upto_200 correct total :
  0 < total <= 200 -> 0 <= correct <= total ->
  exists v, pct correct total = Some v
    /\ (v = exact_round correct total
        \/ (v = exact_round correct total - 1
            /\ 200 * correct mod total = 0 /\ 100 * correct mod total <> 0)).
Proof.
  intros Ht Hc.
  pose proof (all_upto_at near_at 200 correct total near_upto_200 Ht Hc) as H.
  unfold near_at in H.
  destruct (pct correct total) as [v|]; [|done].
  exists v. split; [done|].
  apply orb_true_iff in H as [H|H].
  - left. by apply Z.eqb_eq.
  - right. apply andb_true_iff in H as [H H3]. apply andb_true_iff in H as [H1 H2].
    apply Z.eqb_eq in H1, H2. apply negb_true_iff, Z.eqb_neq in H3. done.
Qed.

Lemma results_correct_count lang answers picked :
  foldl (fun acc q => acc + (if Quiz.is_correct lang answers q then 1 else 0))
        0 picked
  = Z.of_nat (length (filter (fun q => answers !! question_id q
                                       = Some (Quiz.good lang q)) picked)).
Proof.
  assert (forall n,
    foldl (fun acc q => acc + (if Quiz.is_correct lang answers q then 1 else 0))
          n picked
    = n + Z.of_nat (length (filter (fun q => answers !! question_id q
                                       = Some (Quiz.good lang q)) picked))) as H.
  { induction picked as [|q picked IH]; intros n; simpl; [lia|].
    rewrite IH, filter_cons. unfold Quiz.is_correct.
    destruct (decide (answers !! question_id q = Some (Quiz.good lang q))).
    - rewrite bool_decide_true by done. simpl. lia.
    - rewrite bool_decide_false by done. lia. }
  by rewrite H.
Qed.

End PercentFacts.

(** C10, refuted as stated.  A day with 40 items seen and 23 correct is
    shown with 57 %: 23 / 40 is the double 0.575 and its product by 100 is the
    double 57.49999999999999, while round(100 * 23 / 40) is 58. *)
Lemma history_pct_not_exact_round :
  Percent.history_pct (mkDailyStat 40 23 None) = Some 57
  /\ Percent.exact_round 23 40 = 58
  /\ Percent.history_pct (mkDailyStat 40 23 None)
     <> Some (Percent.exact_round (Z.of_N 23) (Z.of_N 40)).
Proof.
  split; [vm_compute; reflexivity|].
  split; [vm_compute; reflexivity|].
  vm_compute. discriminate.
Qed.

(** C10, amended.  Each displayed percentage is guarded against the
    division by zero: it is exactly 0 when the total (questions picked, items
    seen that day) is zero.  When the total is positive it is [Math.round]
    of the double [(correct / total) * 100]; this is round(100 * correct /
    total), halves upwards, for every total up to 39 with no more correct
    than total, hence for every quiz result of up to 39 questions and every
    such day of the history; for a day of up to 200 items seen it is this
    rounding or the integer below it. *)
Theorem percentages_guarded :
  (forall correct, Percent.pct correct 0 = Some 0)
  /\ (forall lang answers, Percent.results_pct lang answers [] = Some 0)
  /\ (forall it, seen it = 0%N -> Percent.history_pct it = Some 0)
  /\ (forall correct total,
        0 < total <= 39 -> 0 <= correct <= total ->
        Percent.pct correct total = Some (Percent.exact_round correct total))
  /\ (forall lang answers picked,
        (0 < length picked <= 39)%nat ->
        Percent.results_pct lang answers picked
        = Some (Percent.exact_round
                  (Z.of_nat (length (filter (fun q => answers !! question_id q
                                               = Some (Quiz.good lang q)) picked)))
                  (Z.of_nat (length picked))))
  /\ (forall it,
        (0 < seen it <= 39)%N -> (correct it <= seen it)%N ->
        Percent.history_pct it
        = Some (Percent.exact_round (Z.of_N (correct it)) (Z.of_N (seen it))))
  /\ (forall it,
        (0 < seen it <= 200)%N -> (correct it <= seen it)%N ->
        exists v,
          Percent.history_pct it = Some v
          /\ Percent.exact_round (Z.of_N (correct it)) (Z.of_N (seen it)) - 1
             <= v
             <= Percent.exact_round (Z.of_N (correct it)) (Z.of_N (seen it))).
Proof.
  split; [reflexivity|]. split; [reflexivity|].
  split; [intros it H; unfold Percent.history_pct; by rewrite H|].
  split; [apply pct_exact_upto_39|]. split; [|split].
  - intros lang answers picked Hlen. unfold Percent.results_pct.
    rewrite results_correct_count. apply pct_exact_upto_39; [lia|].
    split; [lia|]. apply inj_le, length_filter.
  - intros it Hs Hc. apply pct_exact_upto_39; lia.
  - intros it Hs Hc. unfold Percent.history_pct.
    destruct (pct_near_upto_200 (Z.of_N (correct it)) (Z.of_N (seen it)))
      as (v & Hv & Hnear); [lia..|].
    exists v. split; [done|]. destruct Hnear as [->|[-> _]]; lia.
Qed.

Lemma percentages_guarded_witness :
  Percent.history_pct (mkDailyStat 0 0 None) = Some 0
  /\ Percent.pct 1 8 = Some (Percent.exact_round 1 8)
  /\ Percent.history_pct (mkDailyStat 30 7 (Some 2%N))
     = Some (Percent.exact_round 7 30).
Proof.
  destruct percentages_guarded as (_ & _ & Hzero & Hpct & _ & Hday & _).
  split; [|split].
  - apply Hzero. reflexivity.
  - apply Hpct; lia.
  - apply (Hday (mkDailyStat 30 7 (Some 2%N))); simpl; lia.
Defined.

(** * Further properties of the code *)
(** ** White space around the columns *)

Section TrimFacts.
Import JsString Parser ParserSpec.

Let clean_start (t : string) : Prop :=
  match t with
  | EmptyString => True
  | String c _ => is_ws c = false
  end.

Lemma trimStart_clean s : clean_start (trimStart s).
Proof.
  induction s as [|c s IH]; simpl; [done|].
  destruct (is_ws c) eqn:E; [done|]. simpl. done.
Qed.

Lemma trimStart_of_clean t : clean_start t -> trimStart t = t.
Proof. destruct t as [|c t]; simpl; [done|]. by intros ->. Qed.

Lemma trimEnd_clean t : clean_start t -> clean_start (trimEnd t).
Proof.
  destruct t as [|c t]; simpl; [done|]. intros E.
  destruct (trimEnd t); [by rewrite E|done].
Qed.

Lemma trimEnd_idemp s : trimEnd (trimEnd s) = trimEnd s.
Proof.
  induction s as [|c s IH]; simpl; [done|].
  destruct (trimEnd s) as [|d t] eqn:E.
  - destruct (is_ws c) eqn:Ec; simpl; [done|]. by rewrite Ec.
  - simpl in *. by rewrite IH.
Qed.

Lemma trim_idemp s : trim (trim s) = trim s.
Proof.
  unfold trim.
  rewrite (trimStart_of_clean (trimEnd (trimStart s)))
    by apply trimEnd_clean, trimStart_clean.
  apply trimEnd_idemp.
Qed.

Lemma trimEnd_empty_clean t : clean_start t -> trimEnd t = EmptyString -> t = EmptyString.
Proof.
  destruct t as [|c t]; simpl; [done|]. intros E.
  destruct (trimEnd t); [by rewrite E|done].
Qed.

Lemma blank_cons c w : blank (String c w) -> is_ws c = true /\ blank w.
Proof.
  unfold blank, trim. simpl. destruct (is_ws c) eqn:E; [done|].
  simpl. destruct (trimEnd w); [by rewrite E|done].
Qed.

Lemma blank_trimStart w : blank w -> trimStart w = EmptyString.
Proof.
  intros H. apply trimEnd_empty_clean; [apply trimStart_clean|exact H].
Qed.

Lemma trimStart_blank_app w s : blank w -> trimStart (String.append w s) = trimStart s.
Proof.
  induction w as [|c w IH]; [done|].
  change (String.append (String c w) s) with (String c (String.append w s)).
  simpl. intros [-> Hw]%blank_cons. by apply IH.
Qed.

Lemma trimEnd_app_blank s w : blank w -> trimEnd (String.append s w) = trimEnd s.
Proof.
  intros Hw. induction s as [|c s IH].
  - change (String.append EmptyString w) with w.
    revert Hw. clear. induction w as [|c w IH]; simpl; [done|].
    intros [Ec Hw]%blank_cons. by rewrite (IH Hw), Ec.
  - change (String.append (String c s) w) with (String c (String.append s w)).
    simpl. by rewrite IH.
Qed.

Lemma trim_blank_app w s : blank w -> trim (String.append w s) = trim s.
Proof. intros Hw. unfold trim. by rewrite trimStart_blank_app. Qed.

Lemma trim_app_blank s w : blank w -> trim (String.append s w) = trim s.
Proof.
  intros Hw. unfold trim. induction s as [|c s IH].
  - change (String.append EmptyString w) with w.
    by rewrite (blank_trimStart w).
  - change (String.append (String c s) w) with (String c (String.append s w)).
    simpl. destruct (is_ws c); [done|].
    change (String c (String.append s w)) with (String.append (String c s) w).
    by apply trimEnd_app_blank.
Qed.

Lemma blank_no_semi w : blank w -> occurrences SEMI w = 0%nat.
Proof.
  induction w as [|c w IH]; simpl; [done|].
  intros [Ec Hw]%blank_cons. rewrite IH by done.
  destruct (Ascii.eqb_spec c SEMI) as [->|]; [discriminate|done].
Qed.

End TrimFacts.

Section RowFacts.
Import JsString Parser ParserSpec.

Lemma split_no_semi w : occurrences SEMI w = 0%nat -> split SEMI w = [w].
Proof.
  induction w as [|c w IH]; simpl; [done|].
  destruct (Ascii.eqb c SEMI); [done|]. simpl. intros H. by rewrite IH.
Qed.

Lemma split_blank_app w s :
  blank w ->
  split SEMI (String.append w s)
  = match split SEMI s with
    | p :: ps => String.append w p :: ps
    | [] => []
    end.
Proof.
  induction w as [|c w IH]; intros Hw.
  - change (String.append EmptyString s) with s.
    by destruct (split SEMI s).
  - change (String.append (String c w) s) with (String c (String.append w s)).
    apply blank_cons in Hw as [Hc Hw]. simpl.
    destruct (Ascii.eqb_spec c SEMI) as [->|_]; [discriminate|].
    rewrite IH by done. pose proof (split_nonempty SEMI s).
    by destruct (split SEMI s).
Qed.

Lemma split_app_blank s w :
  blank w ->
  exists init last,
    split SEMI s = init ++ [last]
    /\ split SEMI (String.append s w) = init ++ [String.append last w].
Proof.
  intros Hw. induction s as [|c s (init & last & E1 & E2)].
  - exists [], EmptyString. split; [done|].
    change (String.append EmptyString w) with w.
    rewrite split_no_semi; [done|by apply blank_no_semi].
  - change (String.append (String c s) w) with (String c (String.append s w)).
    simpl. rewrite E1, E2. destruct (Ascii.eqb c SEMI).
    + by exists (EmptyString :: init), last.
    + destruct init as [|i0 init]; simpl.
      * by exists [], (String c last).
      * by exists (String c i0 :: init), last.
Qed.

Lemma split_app_semi s t :
  split SEMI (String.append s (String SEMI t)) = split SEMI s ++ split SEMI t.
Proof.
  induction s as [|c s IH].
  - done.
  - change (String.append (String c s) (String SEMI t))
      with (String c (String.append s (String SEMI t))).
    simpl. rewrite IH. destruct (Ascii.eqb c SEMI); [done|].
    pose proof (split_nonempty SEMI s). by destruct (split SEMI s).
Qed.

(** A row depends on the number of its columns and on its cells only. *)
Lemma row_of_cells header l1 l2 :
  length (split SEMI l1) = length (split SEMI l2) ->
  (forall name,
      cell (split SEMI l1) (findIndex (fun h => String.eqb h name) header)
      = cell (split SEMI l2) (findIndex (fun h => String.eqb h name) header)) ->
  row_of header l1 = row_of header l2.
Proof.
  intros Hlen Hcell. unfold row_of. rewrite Hlen.
  destruct (length (split SEMI l2) <? length header)%nat; [done|].
  by rewrite !Hcell.
Qed.

Lemma cell_app_blank init last w j :
  blank w ->
  cell (init ++ [String.append last w]) j = cell (init ++ [last]) j.
Proof.
  intros Hw. unfold cell. destruct (0 <=? j); [|done].
  destruct (lt_eq_lt_dec (Z.to_nat j) (length init)) as [[Hlt|Heq]|Hgt].
  - by rewrite !lookup_app_l by done.
  - rewrite !list_lookup_middle by done. by rewrite trim_app_blank.
  - rewrite !lookup_ge_None_2 by (rewrite length_app; simpl; lia). done.
Qed.

Lemma cell_blank_app p ps w j :
  blank w -> cell (String.append w p :: ps) j = cell (p :: ps) j.
Proof.
  intros Hw. unfold cell. destruct (0 <=? j); [|done].
  destruct (Z.to_nat j); simpl; [|done]. by rewrite trim_blank_app.
Qed.

Lemma row_of_blank_app header w line :
  blank w -> row_of header (String.append w line) = row_of header line.
Proof.
  intros Hw. apply row_of_cells; rewrite split_blank_app by done;
    pose proof (split_nonempty SEMI line);
    destruct (split SEMI line) as [|p ps]; try done.
  intros name. by apply cell_blank_app.
Qed.

Lemma row_of_app_blank header line w :
  blank w -> row_of header (String.append line w) = row_of header line.
Proof.
  intros Hw. destruct (split_app_blank line w Hw) as (init & last & E1 & E2).
  apply row_of_cells; rewrite E1, E2.
  - by rewrite !length_app.
  - intros name. by apply cell_app_blank.
Qed.

Lemma findIndex_range (header : list string) name :
  findIndex (fun h => String.eqb h name) header = -1
  \/ 0 <= findIndex (fun h => String.eqb h name) header < Z.of_nat (length header).
Proof.
  unfold findIndex. rewrite findIndex_from_find.
  destruct (list_find _ header) as [[j x]|] eqn:E; [|by left].
  right. apply list_find_Some in E as (Hj & _). apply lookup_lt_Some in Hj. lia.
Qed.

Lemma findIndex_absent (header : list string) name :
  name ∉ header -> findIndex (fun h => String.eqb h name) header = -1.
Proof.
  intros Hn. unfold findIndex. rewrite findIndex_from_find.
  destruct (list_find _ header) as [[j x]|] eqn:E; [|done].
  apply list_find_Some in E as (Hj & -> & _).
  destruct Hn. by eapply list_elem_of_lookup_2.
Qed.

Lemma length_omap_le {A B} (f : A -> option B) (l : list A) :
  (length (omap f l) <= length l)%nat.
Proof.
  induction l as [|x l IH]; [done|]. csimpl.
  destruct (f x); simpl; lia.
Qed.

End RowFacts.

Section LineFacts.
Import JsString Parser ParserSpec.

Lemma nonblank_app_blank l w :
  blank w -> nonblank (String.append l w) = nonblank l.
Proof. intros Hw. unfold nonblank. by rewrite trim_app_blank. Qed.

Lemma blank_CR : blank (String CR EmptyString).
Proof. reflexivity. Qed.

Lemma blank_empty : blank EmptyString.
Proof. reflexivity. Qed.

Lemma append_empty_r s : String.append s EmptyString = s.
Proof.
  induction s as [|c s IH]; [done|].
  change (String.append (String c s) EmptyString)
    with (String c (String.append s EmptyString)).
  by rewrite IH.
Qed.

Lemma append_assoc s t u :
  String.append (String.append s t) u = String.append s (String.append t u).
Proof.
  induction s as [|c s IH]; [done|].
  change (String.append (String.append (String c s) t) u)
    with (String c (String.append (String.append s t) u)).
  by rewrite IH.
Qed.

(** The parser, from the lines that are left after the blank ones. *)
Lemma parse_lines_form text :
  parseCSVSemicolon text
  = match List.filter nonblank (split_lines text) with
    | [] => []
    | h :: rest => omap (row_of (map trim (split SEMI h))) rest
    end.
Proof.
  unfold parseCSVSemicolon.
  destruct (List.filter nonblank (split_lines text)) as [|h [|l ls]]; [done..|].
  simpl length. rewrite row_loop_omap. simpl.
  by rewrite take_ge by (simpl; lia).
Qed.

Lemma cons_first_snoc c init last :
  exists init' last',
    cons_first c (init ++ [last]) = init' ++ [last']
    /\ (forall x, cons_first c (init ++ [String.append last x])
                  = init' ++ [String.append last' x])
    /\ (forall x, cons_first c (init ++ [last; x]) = init' ++ [last'; x]).
Proof.
  destruct init as [|i0 init]; simpl.
  - by exists [], (String c last).
  - by exists (String c i0 :: init), last.
Qed.

Lemma split_lines_app_CR text :
  exists init last,
    split_lines text = init ++ [last]
    /\ split_lines (String.append text (String CR EmptyString))
       = init ++ [String.append last (String CR EmptyString)].
Proof.
  remember (String.length text) as n eqn:Hn.
  revert text Hn. induction n as [n IH] using lt_wf_ind. intros text Hn.
  destruct text as [|c s'].
  { by exists [], EmptyString. }
  change (String.append (String c s') (String CR EmptyString))
    with (String c (String.append s' (String CR EmptyString))).
  simpl in Hn. simpl split_lines at 1.
  destruct (Ascii.eqb c LF) eqn:Ec.
  - destruct (IH (String.length s') ltac:(lia) s' eq_refl)
      as (init & last & E1 & E2).
    exists (EmptyString :: init), last. simpl. by rewrite Ec, E1, E2.
  - destruct s' as [|c' s''].
    + exists [], (String c EmptyString). simpl. rewrite Ec.
      by destruct (Ascii.eqb c CR).
    + change (String.append (String c' s'') (String CR EmptyString))
        with (String c' (String.append s'' (String CR EmptyString))).
      simpl in Hn.
      assert (split_lines (String c (String c' (String.append s'' (String CR EmptyString))))
              = if Ascii.eqb c CR && Ascii.eqb c' LF
                then EmptyString :: split_lines (String.append s'' (String CR EmptyString))
                else cons_first c (split_lines (String.append (String c' s'') (String CR EmptyString))))
        as -> by (simpl; by rewrite Ec).
      destruct (Ascii.eqb c CR && Ascii.eqb c' LF).
      * destruct (IH (String.length s'') ltac:(lia) s'' eq_refl)
          as (init & last & E1 & E2).
        exists (EmptyString :: init), last. by rewrite E1, E2.
      * destruct (IH (String.length (String c' s'')) ltac:(simpl; lia)
                     (String c' s'') eq_refl) as (init & last & E1 & E2).
        rewrite E1, E2.
        destruct (cons_first_snoc c init last) as (init' & last' & F1 & F2 & _).
        exists init', last'. by rewrite F1, F2.
Qed.

Lemma split_lines_app_LF text :
  exists init last w,
    blank w
    /\ split_lines text = init ++ [String.append last w]
    /\ split_lines (String.append text (String LF EmptyString))
       = init ++ [last; EmptyString].
Proof.
  remember (String.length text) as n eqn:Hn.
  revert text Hn. induction n as [n IH] using lt_wf_ind. intros text Hn.
  destruct text as [|c s'].
  { by exists [], EmptyString, EmptyString. }
  change (String.append (String c s') (String LF EmptyString))
    with (String c (String.append s' (String LF EmptyString))).
  simpl in Hn. simpl split_lines at 1.
  destruct (Ascii.eqb c LF) eqn:Ec.
  - destruct (IH (String.length s') ltac:(lia) s' eq_refl)
      as (init & last & w & Hw & E1 & E2).
    exists (EmptyString :: init), last, w. simpl. by rewrite Ec, E1, E2.
  - destruct s' as [|c' s''].
    + simpl. rewrite Ec. simpl. destruct (Ascii.eqb_spec c CR) as [->|Hc]; simpl.
      * by exists [], EmptyString, (String CR EmptyString).
      * exists [], (String c EmptyString), EmptyString. by rewrite append_empty_r.
    + change (String.append (String c' s'') (String LF EmptyString))
        with (String c' (String.append s'' (String LF EmptyString))).
      simpl in Hn.
      assert (split_lines (String c (String c' (String.append s'' (String LF EmptyString))))
              = if Ascii.eqb c CR && Ascii.eqb c' LF
                then EmptyString :: split_lines (String.append s'' (String LF EmptyString))
                else cons_first c (split_lines (String.append (String c' s'') (String LF EmptyString))))
        as -> by (simpl; by rewrite Ec).
      destruct (Ascii.eqb c CR && Ascii.eqb c' LF).
      * destruct (IH (String.length s'') ltac:(lia) s'' eq_refl)
          as (init & last & w & Hw & E1 & E2).
        exists (EmptyString :: init), last, w. by rewrite E1, E2.
      * destruct (IH (String.length (String c' s'')) ltac:(simpl; lia)
                     (String c' s'') eq_refl) as (init & last & w & Hw & E1 & E2).
        rewrite E1, E2.
        destruct (cons_first_snoc c init last) as (init' & last' & F1 & F2 & F3).
        exists init', last', w. by rewrite F2, F3.
Qed.

(** Lines that differ by white space at the end of the last one, and by
    blank lines after it, give the same records. *)
Lemma parse_lines_tail (init : list string) last w (more : list string) :
  blank w -> Forall (fun l => nonblank l = false) more ->
  match List.filter nonblank (init ++ [String.append last w]) with
  | [] => []
  | h :: rest => omap (row_of (map trim (split SEMI h))) rest
  end
  = match List.filter nonblank (init ++ last :: more) with
    | [] => []
    | h :: rest => omap (row_of (map trim (split SEMI h))) rest
    end.
Proof.
  intros Hw Hmore. rewrite !List.filter_app. simpl.
  rewrite nonblank_app_blank by done.
  assert (List.filter nonblank more = []) as ->.
  { induction Hmore as [|l more Hl _ IH]; simpl; [done|]. by rewrite Hl. }
  destruct (nonblank last); [|done].
  destruct (List.filter nonblank init) as [|h rest]; simpl; [done|].
  rewrite !omap_app. f_equal. simpl. by rewrite row_of_app_blank.
Qed.

End LineFacts.

(** X1.  Every record the parser returns has a question_id that is not
    empty, and each of its eleven fields is free of white space at both
    ends: trimming it again changes nothing. *)
Theorem parsed_records_wellformed (text : string) (r : QA) :
  r ∈ Parser.parseCSVSemicolon text ->
  question_id r <> EmptyString
  /\ Forall (fun f => JsString.trim f = f)
       [question_id r; question_english r; correct_answer_english r;
        incorrect_answer_1_english r; incorrect_answer_2_english r;
        incorrect_answer_3_english r; question_french r;
        correct_answer_french r; incorrect_answer_1_french r;
        incorrect_answer_2_french r; incorrect_answer_3_french r].
Proof.
  rewrite parse_refines. unfold ParserSpec.parse_spec.
  destruct (filter _ (JsString.split_lines text)) as [|h [|l ls]];
    [by intros ?%elem_of_nil..|].
  intros (line & _ & Hline)%list_elem_of_omap.
  unfold ParserSpec.record_of_line in Hline.
  destruct (decide _) as [|_]; [done|].
  destruct (decide _) as [|Hid]; [done|].
  injection Hline as <-. split; [exact Hid|].
  assert (forall header cols name,
    JsString.trim (ParserSpec.column header cols name)
    = ParserSpec.column header cols name) as Hcol.
  { intros header cols name. unfold ParserSpec.column.
    destruct (list_find _ header) as [[j x]|]; [|done].
    destruct (cols !! j); simpl; [apply trim_idemp|done]. }
  repeat (constructor; [apply Hcol|]). constructor.
Qed.

Lemma parsed_records_wellformed_witness :
  question_id (Samples.only "A-1" "x") <> EmptyString
  /\ Forall (fun f => JsString.trim f = f)
       [question_id (Samples.only "A-1" "x");
        question_english (Samples.only "A-1" "x");
        correct_answer_english (Samples.only "A-1" "x");
        incorrect_answer_1_english (Samples.only "A-1" "x");
        incorrect_answer_2_english (Samples.only "A-1" "x");
        incorrect_answer_3_english (Samples.only "A-1" "x");
        question_french (Samples.only "A-1" "x");
        correct_answer_french (Samples.only "A-1" "x");
        incorrect_answer_1_french (Samples.only "A-1" "x");
        incorrect_answer_2_french (Samples.only "A-1" "x");
        incorrect_answer_3_french (Samples.only "A-1" "x")].
Proof.
  apply (parsed_records_wellformed Samples.small_text).
  vm_compute. apply list_elem_of_here.
Defined.

(** X2.  When no column of the header is named question_id, the parser
    returns no record, whatever the rows hold. *)
Theorem header_without_id_gives_nothing (text : string) :
  "question_id"
    ∉ map JsString.trim
        (JsString.split Parser.SEMI
           (List.nth 0 (List.filter Parser.nonblank (JsString.split_lines text))
                     EmptyString)) ->
  Parser.parseCSVSemicolon text = [].
Proof.
  intros Hno. rewrite parse_lines_form.
  destruct (List.filter Parser.nonblank (JsString.split_lines text))
    as [|h rest]; [done|].
  simpl in Hno. induction rest as [|l rest IH]; [done|]. csimpl.
  rewrite IH. unfold Parser.row_of.
  rewrite (findIndex_absent _ "question_id" Hno).
  by destruct (_ <? _)%nat.
Qed.

Lemma header_without_id_gives_nothing_witness :
  Parser.parseCSVSemicolon
    (String.append "id;question_english" (String JsString.LF "A-1;x")) = [].
Proof.
  apply header_without_id_gives_nothing.
  vm_compute. intros H. repeat (apply elem_of_cons in H as [H|H]; [discriminate|]).
  by apply elem_of_nil in H.
Defined.

(** X3.  The parser returns at most one record per line that is not blank,
    the header line not counted. *)
Theorem parsed_length_bound (text : string) :
  (length (Parser.parseCSVSemicolon text)
   <= length (List.filter Parser.nonblank (JsString.split_lines text)) - 1)%nat.
Proof.
  rewrite parse_lines_form.
  destruct (List.filter Parser.nonblank (JsString.split_lines text))
    as [|h rest]; simpl; [lia|].
  rewrite Nat.sub_0_r. apply length_omap_le.
Qed.

(** X4.  In a row, white space before the first column and after the last
    one does not count: the row gives the record, or the absence of record,
    that it gives without it. *)
Theorem row_ignores_outer_whitespace
  (header : list string) (w1 line w2 : string) :
  ParserSpec.blank w1 -> ParserSpec.blank w2 ->
  Parser.row_of header (String.append w1 (String.append line w2))
  = Parser.row_of header line.
Proof.
  intros H1 H2. by rewrite row_of_blank_app, row_of_app_blank.
Qed.

Lemma row_ignores_outer_whitespace_witness :
  Parser.row_of ["question_id"; "question_english"]
    (String.append "  " (String.append "A-1;x" (String JsString.CR EmptyString)))
  = Parser.row_of ["question_id"; "question_english"] "A-1;x".
Proof.
  apply row_ignores_outer_whitespace; reflexivity.
Defined.

(** X5.  Columns in surplus at the end of a row are ignored: a row that has
    as many columns as the header gives the same record with further
    columns after them. *)
Theorem row_ignores_surplus_columns
  (header : list string) (line extra : string) :
  (length header <= length (JsString.split Parser.SEMI line))%nat ->
  Parser.row_of header (String.append line (String Parser.SEMI extra))
  = Parser.row_of header line.
Proof.
  intros Hlen. unfold Parser.row_of. rewrite split_app_semi, length_app.
  destruct (Nat.ltb_spec (length (JsString.split Parser.SEMI line)) (length header));
    [lia|].
  destruct (Nat.ltb_spec (length (JsString.split Parser.SEMI line)
                          + length (JsString.split Parser.SEMI extra))
                         (length header)); [lia|].
  assert (forall name,
    Parser.cell (JsString.split Parser.SEMI line ++ JsString.split Parser.SEMI extra)
      (JsString.findIndex (fun h => String.eqb h name) header)
    = Parser.cell (JsString.split Parser.SEMI line)
        (JsString.findIndex (fun h => String.eqb h name) header)) as Hcell.
  { intros name. destruct (findIndex_range header name) as [->|Hr]; [done|].
    unfold Parser.cell. destruct (0 <=? _); [|done].
    by rewrite lookup_app_l by lia. }
  by rewrite !Hcell.
Qed.

Lemma row_ignores_surplus_columns_witness :
  Parser.row_of ["question_id"; "question_english"] "A-1;x;y;z"
  = Parser.row_of ["question_id"; "question_english"] "A-1;x".
Proof.
  apply (row_ignores_surplus_columns ["question_id"; "question_english"]
           "A-1;x" "y;z").
  vm_compute. lia.
Defined.

(** X6.  A line break at the end of the text, LF or CR LF, does not change
    the records. *)
Theorem final_line_break_ignored (text : string) :
  Parser.parseCSVSemicolon (String.append text (String JsString.LF EmptyString))
  = Parser.parseCSVSemicolon text
  /\ Parser.parseCSVSemicolon
       (String.append text (String JsString.CR (String JsString.LF EmptyString)))
     = Parser.parseCSVSemicolon text.
Proof.
  assert (forall t,
    Parser.parseCSVSemicolon (String.append t (String JsString.LF EmptyString))
    = Parser.parseCSVSemicolon t) as HLF.
  { intros t. rewrite !parse_lines_form.
    destruct (split_lines_app_LF t) as (init & last & w & Hw & E1 & E2).
    rewrite E1, E2. symmetry.
    apply (parse_lines_tail init last w [EmptyString] Hw).
    by repeat constructor. }
  split; [apply HLF|].
  change (String JsString.CR (String JsString.LF EmptyString))
    with (String.append (String JsString.CR EmptyString)
                        (String JsString.LF EmptyString)).
  rewrite <- append_assoc, HLF, !parse_lines_form.
  destruct (split_lines_app_CR text) as (init & last & E1 & E2).
  rewrite E1, E2.
  apply (parse_lines_tail init last (String JsString.CR EmptyString) []
           blank_CR).
  constructor.
Qed.

(** ** More on the flashcard order *)

Section OrderFacts.
Import Flashcards.

Lemma sort_of_sorted {A} (f : A -> Z) (l : list A) :
  StronglySorted (fun a b => f a <= f b) l ->
  sort (fun a b => f a - f b) l = l.
Proof.
  induction 1 as [|x l Hl IH Hx]; simpl; [done|].
  rewrite IH. destruct l as [|y l]; simpl; [done|].
  apply Forall_cons in Hx as [Hxy _].
  by destruct (Z.ltb_spec 0 (f x - f y)); [lia|].
Qed.

Lemma sorted_filter {A} (R : relation A) (P : A -> Prop)
  `{!forall x, Decision (P x)} (l : list A) :
  StronglySorted R l -> StronglySorted R (filter P l).
Proof.
  induction 1 as [|x l Hl IH Hx]; [constructor|].
  rewrite filter_cons. destruct (decide (P x)); [|done].
  constructor; [done|].
  rewrite Forall_forall in Hx |- *. intros y [_ Hy]%list_elem_of_filter. auto.
Qed.

Lemma sort_filter_commute {A} (f : A -> Z) (P : A -> Prop)
  `{!forall x, Decision (P x)} (l : list A) :
  sort (fun a b => f a - f b) (filter P l)
  = filter P (sort (fun a b => f a - f b) l).
Proof.
  apply (stable_sorted_unique f).
  - apply (sort_sorted f).
  - apply sorted_filter, (sort_sorted f).
  - intros s.
    assert (forall k : list A,
      filter (fun x => f x = s) (filter P k)
      = filter P (filter (fun x => f x = s) k)) as Hcomm.
    { intros k. rewrite !list_filter_filter. apply list_filter_iff.
      intros x. split; intros [? ?]; done. }
    rewrite (sort_filter f) by congruence.
    rewrite (Hcomm (sort _ l)), (sort_filter f) by congruence.
    apply Hcomm.
Qed.

Lemma filtered_filter section qas :
  App.filtered section qas
  = filter (fun q => String.prefix section (question_id q) = true) qas.
Proof.
  unfold App.filtered. destruct section as [|c section].
  - induction qas as [|q qas IH]; [done|].
    rewrite filter_cons_True; [by rewrite <- IH | by destruct (question_id q)].
  - induction qas as [|q qas IH]; simpl; [done|].
    rewrite filter_cons, IH.
    destruct (decide (String.prefix (String c section) (question_id q) = true))
      as [E|E].
    + by rewrite E.
    + by apply not_true_is_false in E as ->.
Qed.

Lemma score_empty q : score ∅ q = 1000000000.
Proof. unfold score. by rewrite lookup_empty. Qed.

Lemma sorted_constant {A} (f : A -> Z) (l : list A) :
  (forall a b, a ∈ l -> b ∈ l -> f a = f b) ->
  StronglySorted (fun a b => f a <= f b) l.
Proof.
  induction l as [|x l IH]; intros H; constructor.
  - apply IH. intros a b Ha Hb. apply H; by apply list_elem_of_further.
  - apply Forall_forall. intros y Hy.
    rewrite (H x y); [lia|apply list_elem_of_here|by apply list_elem_of_further].
Qed.

End OrderFacts.

(** X7.  The flashcard order leaves the bank as it is exactly when the bank
    is already in ascending order of the key; so it does when no card was
    ever graded (a fresh or reset review state), and when all the cards of
    the bank have the same ease and last-seen time. *)
Theorem ordered_keeps_sorted_bank (srs : gmap string SrsEntry) (qas : list QA) :
  (Flashcards.ordered srs qas = qas
   <-> StronglySorted (fun a b => Flashcards.score srs a <= Flashcards.score srs b) qas)
  /\ Flashcards.ordered ∅ qas = qas
  /\ ((forall a b, a ∈ qas -> b ∈ qas ->
         Flashcards.review_key srs a = Flashcards.review_key srs b) ->
      Flashcards.ordered srs qas = qas).
Proof.
  assert (forall s, StronglySorted
            (fun a b => Flashcards.score s a <= Flashcards.score s b) qas ->
          Flashcards.ordered s qas = qas) as Hs.
  { intros s H. rewrite ordered_sort. by apply (sort_of_sorted (Flashcards.score s)). }
  split; [|split].
  - split; [|apply Hs]. intros <-. apply ordered_sorted.
  - apply Hs, sorted_constant. intros a b _ _. by rewrite !score_empty.
  - intros H. apply Hs, sorted_constant. intros a b Ha Hb.
    rewrite !score_review_key. by rewrite (H a b).
Qed.

Lemma ordered_keeps_sorted_bank_witness :
  Flashcards.ordered Samples.close_cards_srs [Samples.card_hard]
  = [Samples.card_hard].
Proof.
  apply (proj2 (proj2 (ordered_keeps_sorted_bank Samples.close_cards_srs
                         [Samples.card_hard]))).
  intros a b ->%list_elem_of_singleton ->%list_elem_of_singleton. reflexivity.
Defined.

(** X8.  Ordering twice is ordering once, and ordering commutes with the
    section filter: the flashcards of a section are the cards of the section
    in the order they have in the ordered bank. *)
Theorem ordered_idempotent_and_filter
  (srs : gmap string SrsEntry) (section : string) (qas : list QA) :
  Flashcards.ordered srs (Flashcards.ordered srs qas) = Flashcards.ordered srs qas
  /\ Flashcards.ordered srs (App.filtered section qas)
     = App.filtered section (Flashcards.ordered srs qas).
Proof.
  split.
  - rewrite (ordered_sort srs (Flashcards.ordered srs qas)).
    apply (sort_of_sorted (Flashcards.score srs)), ordered_sorted.
  - rewrite !filtered_filter, !ordered_sort.
    apply (sort_filter_commute (Flashcards.score srs)).
Qed.

(** X9.  A card that has just been graded, its identifier not being
    [__proto__], goes behind the cards it does not beat: in the order
    computed from the new review state, every other question of the bank
    whose ease is at most the grade given and whose last-seen time is before
    the instant of the grade comes before it. *)
Theorem graded_card_goes_behind
  (tz : JsDate.TimeZone) (q b : QA) (e : Ease) (now key : Z)
  (st : Store) (qas : list QA) :
  q ∈ qas -> b ∈ qas ->
  question_id q <> JsObject.PROTO ->
  question_id b <> question_id q ->
  (Flashcards.review_key (srs st) b).1 <= ease_num e ->
  (Flashcards.review_key (srs st) b).2 < now ->
  forall i j,
    Flashcards.ordered (srs (Progress.mark tz q e now key st)) qas !! i = Some q ->
    Flashcards.ordered (srs (Progress.mark tz q e now key st)) qas !! j = Some b ->
    (j < i)%nat.
Proof.
  intros Hq Hb Hproto Hid He Hl i j Hi Hj.
  refine (proj2 (ordered_lower_score_first _ qas b q Hb Hq _) j i Hj Hi).
  rewrite !score_review_key. unfold Flashcards.review_key in *.
  change (srs (Progress.mark tz q e now key st))
    with (JsObject.assign (question_id q) (mkSrsEntry e now) (srs st)).
  rewrite assign_lookup, assign_lookup_ne by done. simpl.
  destruct (srs st !! question_id b); simpl in *; nia.
Qed.

Lemma graded_card_goes_behind_witness :
  Flashcards.ordered
    (srs (Progress.mark Samples.utc_zone Samples.card_hard Easy
            Samples.tuesday_morning 20760 (mkStore ∅ Samples.two_cards_srs)))
    Samples.two_cards !! 1%nat = Some Samples.card_hard
  /\ Flashcards.ordered
       (srs (Progress.mark Samples.utc_zone Samples.card_hard Easy
               Samples.tuesday_morning 20760 (mkStore ∅ Samples.two_cards_srs)))
       Samples.two_cards !! 0%nat = Some Samples.card_easy
  /\ (0 < 1)%nat.
Proof.
  assert (Flashcards.ordered
            (srs (Progress.mark Samples.utc_zone Samples.card_hard Easy
                    Samples.tuesday_morning 20760
                    (mkStore ∅ Samples.two_cards_srs)))
            Samples.two_cards !! 1%nat = Some Samples.card_hard) as E1
    by (vm_compute; reflexivity).
  assert (Flashcards.ordered
            (srs (Progress.mark Samples.utc_zone Samples.card_hard Easy
                    Samples.tuesday_morning 20760
                    (mkStore ∅ Samples.two_cards_srs)))
            Samples.two_cards !! 0%nat = Some Samples.card_easy) as E0
    by (vm_compute; reflexivity).
  split; [exact E1|]. split; [exact E0|].
  apply (graded_card_goes_behind Samples.utc_zone Samples.card_hard
           Samples.card_easy Easy Samples.tuesday_morning 20760
           (mkStore ∅ Samples.two_cards_srs) Samples.two_cards);
    [apply list_elem_of_here
    |apply list_elem_of_further, list_elem_of_here
    |vm_compute; discriminate
    |vm_compute; discriminate
    |vm_compute; discriminate
    |vm_compute; reflexivity
    |exact E1
    |exact E0].
Defined.

(** ** More on the ledger *)

Section LedgerFacts.
Import JsDate LedgerSpec.

Lemma setDate_previous_back tz dt :
  setDate_previous tz dt <= dt - 23 * msPerHour.
Proof.
  unfold setDate_previous, UTC, LocalTime, LocalTZA, msPerDay, msPerHour.
  destruct (dst_at_utc tz dt), (dst_at_local tz _); lia.
Qed.

Lemma walk_measure_decreases tz cur dt e :
  cur !! iso_date dt = Some e ->
  (Z.to_nat (setDate_previous tz dt / msPerHour + 1 - Progress.earliest cur * 24)
   < Z.to_nat (dt / msPerHour + 1 - Progress.earliest cur * 24))%nat.
Proof.
  intros H. pose proof (earliest_le _ _ _ H) as Hle.
  assert (iso_date dt = dt / msPerHour / 24) as Hday
    by (unfold iso_date; by rewrite Z.div_div).
  pose proof (Z.mul_div_le (dt / msPerHour) 24 eq_refl) as Hdiv.
  pose proof (setDate_previous_back tz dt) as Hprev.
  apply (Z.div_le_mono _ _ msPerHour eq_refl) in Hprev.
  replace (dt - 23 * msPerHour) with (dt + (-23) * msPerHour) in Hprev by lia.
  rewrite Z.div_add in Hprev by done. lia.
Qed.

Lemma streak_walk_ge tz cur dt n : (n <= Progress.streak_walk tz cur dt n)%N.
Proof.
  remember (Z.to_nat (dt / msPerHour + 1 - Progress.earliest cur * 24)) as k eqn:Hk.
  revert dt n Hk. induction k as [k IH] using lt_wf_ind. intros dt n ->.
  rewrite streak_walk_unfold. destruct (cur !! iso_date dt) as [e|] eqn:E; [|lia].
  destruct (seen e =? 0)%N; [lia|].
  pose proof (IH _ (walk_measure_decreases tz cur dt e E)
                 (setDate_previous tz dt) (n + 1)%N eq_refl). lia.
Qed.

(** What makes the walk stop at a date. *)
Let stops (cur : gmap Z DailyStat) (d : Z) : bool :=
  match cur !! d with
  | None => true
  | Some e => (seen e =? 0)%N
  end.

Lemma streak_walk_ext tz cur1 cur2 dt n :
  (forall d, stops cur1 d = stops cur2 d) ->
  Progress.streak_walk tz cur1 dt n = Progress.streak_walk tz cur2 dt n.
Proof.
  intros Hs.
  remember (Z.to_nat (dt / msPerHour + 1 - Progress.earliest cur1 * 24)) as k eqn:Hk.
  revert dt n Hk. induction k as [k IH] using lt_wf_ind. intros dt n ->.
  rewrite (streak_walk_unfold tz cur1), (streak_walk_unfold tz cur2).
  specialize (Hs (iso_date dt)) as Hd. unfold stops in Hd.
  destruct (cur1 !! iso_date dt) as [e1|] eqn:E1,
           (cur2 !! iso_date dt) as [e2|] eqn:E2; rewrite <- ?Hd; try done.
  - destruct (seen e1 =? 0)%N; [done|].
    apply (IH _ (walk_measure_decreases tz cur1 dt e1 E1)). done.
  - by destruct (seen e1 =? 0)%N.
Qed.

Lemma iso_date_previous_lt tz key :
  iso_date (setDate_previous tz (parse_date_only key)) < key.
Proof.
  pose proof (setDate_previous_back tz (parse_date_only key)) as H.
  unfold iso_date, parse_date_only in *.
  apply Z.div_lt_upper_bound; [done|]. unfold msPerDay, msPerHour in *. lia.
Qed.

Lemma bump_stops tz key s c cur d :
  stops (Progress.bump tz key s c cur) d
  = stops (<[key := mkDailyStat (seen (entry cur key) + s)
                      (correct (entry cur key) + c)
                      (streak (entry cur key))]> cur) d.
Proof.
  unfold stops. destruct (decide (d = key)) as [->|Hd].
  - by rewrite bump_lookup_today, lookup_insert_eq.
  - by rewrite bump_lookup_other, lookup_insert_ne.
Qed.

Lemma bump_streak_zero tz key s c cur :
  exists n,
    streak <$> Progress.bump tz key s c cur !! key = Some (Some n)
    /\ (n = 0%N <-> (seen (entry cur key) + s = 0)%N).
Proof.
  rewrite bump_lookup_today. simpl. eexists. split; [reflexivity|].
  rewrite streak_walk_unfold, iso_date_parse, lookup_insert_eq. simpl.
  destruct (N.eqb_spec (seen (entry cur key) + s) 0) as [E|E]; [done|].
  split; [|done]. intros H.
  pose proof (streak_walk_ge tz
    (<[key := mkDailyStat (seen (entry cur key) + s)
                (correct (entry cur key) + c) (streak (entry cur key))]> cur)
    (setDate_previous tz (parse_date_only key)) (0 + 1)%N). lia.
Qed.

Lemma bump_twice_streak tz key s1 c1 s2 c2 cur :
  (1 <= seen (entry cur key) + s1)%N ->
  streak <$> Progress.bump tz key s2 c2 (Progress.bump tz key s1 c1 cur) !! key
  = streak <$> Progress.bump tz key s1 c1 cur !! key.
Proof.
  intros Hpos. rewrite (bump_lookup_today tz key s2), (bump_lookup_today tz key s1).
  simpl. do 2 f_equal. apply streak_walk_ext. intros d.
  unfold stops. destruct (decide (d = key)) as [->|Hd].
  - rewrite !lookup_insert_eq. simpl. unfold entry at 1.
    rewrite bump_lookup_today. simpl.
    destruct (N.eqb_spec (seen (entry cur key) + s1 + s2) 0),
             (N.eqb_spec (seen (entry cur key) + s1) 0); try done; lia.
  - by rewrite !lookup_insert_ne, bump_lookup_other by done.
Qed.

Lemma step_progress tz key ev st :
  exists s c,
    progress (App.step tz key ev st) = Progress.bump tz key s c (progress st)
    /\ (c <= s)%N
    /\ match ev with
       | App.Grade _ e _ => s = 1%N /\ c = (if decide (e = Hard) then 0 else 1)%N
       | App.Submit lang answers pick =>
           s = N.of_nat (length pick)
           /\ c = N.of_nat (length (filter (fun q => answers !! question_id q
                                              = Some (Quiz.good lang q)) pick))
       end.
Proof.
  destruct ev as [q e now|lang answers pick]; simpl.
  - eexists _, _. split; [reflexivity|]. by destruct e.
  - eexists _, _. split; [reflexivity|]. rewrite count_correct_filter.
    split; [|done]. pose proof (length_filter (fun q => answers !! question_id q = Some (Quiz.good lang q)) pick). lia.
Qed.

End LedgerFacts.

(** X10.  Grading a flashcard adds one to today's seen count, and one to
    today's correct count unless the grade is "Dur"; the entry of every
    other date is left as it was. *)
Theorem grade_counts
  (tz : JsDate.TimeZone) (q : QA) (e : Ease) (now key : Z) (st : Store) :
  let old := LedgerSpec.entry (progress st) key in
  let new := progress (Progress.mark tz q e now key st) in
  (exists x,
      new !! key = Some x
      /\ seen x = (seen old + 1)%N
      /\ correct x = (correct old + (if decide (e = Hard) then 0 else 1))%N)
  /\ (forall d, d <> key -> new !! d = progress st !! d).
Proof.
  intros old new. split.
  - unfold new, Progress.mark, Progress.bumpProgress. simpl.
    rewrite bump_lookup_today. eexists. split; [reflexivity|]. simpl.
    split; [done|]. by destruct e.
  - intros d Hd. by apply bump_lookup_other.
Qed.

Lemma grade_counts_witness :
  progress (Progress.mark Samples.toronto_2026 Samples.card_hard Hard
              Samples.tuesday_morning 20760 Samples.gap_store) !! 20757
  = Some (mkDailyStat 4 4 (Some 1%N)).
Proof.
  rewrite (proj2 (grade_counts Samples.toronto_2026 Samples.card_hard Hard
                    Samples.tuesday_morning 20760 Samples.gap_store) 20757).
  - vm_compute. reflexivity.
  - lia.
Defined.

(** X11.  No event makes a day count more correct answers than items seen:
    when every entry of the ledger has correct <= seen, so has every entry
    after a flashcard grade or a quiz submission. *)
Theorem ledger_correct_le_seen
  (tz : JsDate.TimeZone) (key : Z) (ev : App.Event) (st : Store) :
  (forall d x, progress st !! d = Some x -> (correct x <= seen x)%N) ->
  forall d x, progress (App.step tz key ev st) !! d = Some x ->
              (correct x <= seen x)%N.
Proof.
  intros Hinv d x.
  destruct (step_progress tz key ev st) as (s & c & -> & Hcs & _).
  destruct (decide (d = key)) as [->|Hd].
  - rewrite bump_lookup_today. intros [= <-]. simpl.
    unfold LedgerSpec.entry.
    destruct (progress st !! key) as [y|] eqn:E; simpl; [|lia].
    specialize (Hinv key y E). lia.
  - rewrite bump_lookup_other by done. apply Hinv.
Qed.

Lemma ledger_correct_le_seen_witness :
  progress (App.step Samples.toronto_2026 20760
              (App.Grade Samples.card_hard Good Samples.tuesday_morning)
              Samples.gap_store) !! 20760
  = Some (mkDailyStat 1 1 (Some 3%N))
  /\ (correct (mkDailyStat 1 1 (Some 3%N))
      <= seen (mkDailyStat 1 1 (Some 3%N)))%N.
Proof.
  assert (progress (App.step Samples.toronto_2026 20760
                      (App.Grade Samples.card_hard Good Samples.tuesday_morning)
                      Samples.gap_store) !! 20760
          = Some (mkDailyStat 1 1 (Some 3%N))) as E
    by (vm_compute; reflexivity).
  split; [exact E|].
  refine (ledger_correct_le_seen Samples.toronto_2026 20760
            (App.Grade Samples.card_hard Good Samples.tuesday_morning)
            Samples.gap_store _ 20760 (mkDailyStat 1 1 (Some 3%N)) E).
  intros d x. unfold Samples.gap_store. simpl.
  destruct (decide (d = 20759)) as [->|H1].
  - rewrite lookup_insert_eq. intros [= <-]. simpl. lia.
  - rewrite lookup_insert_ne by done.
    destruct (decide (d = 20757)) as [->|H2].
    + rewrite lookup_insert_eq. intros [= <-]. simpl. lia.
    + rewrite lookup_insert_ne by done. by rewrite lookup_empty.
Defined.

(** X12.  In every time zone, the streak stored under today's date after an
    event is 0 exactly when today's seen count is 0 (an empty quiz submitted
    on a day without activity); one item seen today gives a streak of 1 at
    least. *)
Theorem streak_zero_iff_nothing_seen
  (tz : JsDate.TimeZone) (key : Z) (ev : App.Event) (st : Store) :
  exists x n,
    progress (App.step tz key ev st) !! key = Some x
    /\ streak x = Some n
    /\ (n = 0%N <-> seen x = 0%N).
Proof.
  destruct (step_progress tz key ev st) as (s & c & -> & _ & _).
  destruct (bump_streak_zero tz key s c (progress st)) as (n & Hn & Hz).
  rewrite bump_lookup_today in Hn |- *. eexists _, n.
  split; [reflexivity|]. simpl in *. split; [congruence|done].
Qed.

(** X13.  In every time zone, once today has an item seen, a further event
    on the same day leaves the stored streak as it is. *)
Theorem streak_stable_within_day
  (tz : JsDate.TimeZone) (key : Z) (ev1 ev2 : App.Event) (st : Store) :
  (exists x, progress (App.step tz key ev1 st) !! key = Some x
             /\ (1 <= seen x)%N) ->
  streak <$> progress (App.step tz key ev2 (App.step tz key ev1 st)) !! key
  = streak <$> progress (App.step tz key ev1 st) !! key.
Proof.
  intros (x & Hx & Hpos).
  destruct (step_progress tz key ev2 (App.step tz key ev1 st))
    as (s2 & c2 & -> & _ & _).
  destruct (step_progress tz key ev1 st) as (s1 & c1 & E1 & _ & _).
  rewrite E1 in Hx |- *. apply bump_twice_streak.
  rewrite bump_lookup_today in Hx. injection Hx as <-. exact Hpos.
Qed.

Lemma streak_stable_within_day_witness :
  streak <$> progress
    (App.step Samples.toronto_2026 20760
       (App.Submit FR ∅ Samples.two_cards)
       (App.step Samples.toronto_2026 20760
          (App.Grade Samples.card_hard Good Samples.tuesday_morning)
          Samples.gap_store)) !! 20760
  = streak <$> progress
      (App.step Samples.toronto_2026 20760
         (App.Grade Samples.card_hard Good Samples.tuesday_morning)
         Samples.gap_store) !! 20760.
Proof.
  apply streak_stable_within_day.
  exists (mkDailyStat 1 1 (Some 3%N)). split; [vm_compute; reflexivity|].
  simpl. lia.
Defined.

(** X14.  In a time zone without daylight saving time the streak goes on
    day after day: when the consecutive active days ending yesterday are
    [s] (0 when yesterday was not active), an event that leaves an item seen
    today stores the streak [s + 1]. *)
Theorem streak_extends_yesterday
  (tz : JsDate.TimeZone) (key : Z) (ev : App.Event) (st : Store) (s : N) :
  JsDate.no_dst tz ->
  LedgerSpec.consecutive_days (progress st) (key - 1) s ->
  LedgerSpec.active (progress (App.step tz key ev st)) key ->
  streak <$> progress (App.step tz key ev st) !! key = Some (Some (s + 1)%N).
Proof.
  intros Htz [Hact Hstop] Htoday.
  destruct (streak_counts_consecutive_days_without_dst tz key ev st Htz)
    as (x & n & Hx & Hn & Hc).
  rewrite Hx. simpl. rewrite Hn. do 2 f_equal.
  apply (consecutive_days_unique _ _ _ _ Hc).
  destruct (step_progress tz key ev st) as (s' & c' & E & _ & _).
  assert (forall d, d <> key ->
            (LedgerSpec.active (progress (App.step tz key ev st)) d
             <-> LedgerSpec.active (progress st) d)) as Hother.
  { intros d Hd. unfold LedgerSpec.active.
    by rewrite E, bump_lookup_other. }
  split.
  - intros i Hi. destruct (decide (i = 0)) as [->|Hi0].
    + by rewrite Z.sub_0_r.
    + apply Hother; [lia|].
      replace (key - i) with (key - 1 - (i - 1)) by lia. apply Hact. lia.
  - rewrite Hother by lia.
    replace (key - Z.of_N (s + 1)) with (key - 1 - Z.of_N s) by lia. done.
Qed.

Lemma streak_extends_yesterday_witness :
  streak <$> progress
    (App.step Samples.utc_zone 20760
       (App.Grade Samples.card_hard Good Samples.tuesday_morning)
       Samples.gap_store) !! 20760
  = Some (Some (1 + 1)%N).
Proof.
  apply (streak_extends_yesterday Samples.utc_zone 20760
           (App.Grade Samples.card_hard Good Samples.tuesday_morning)
           Samples.gap_store 1).
  - split; reflexivity.
  - split.
    + intros i Hi. assert (i = 0) as -> by lia.
      exists (mkDailyStat 5 3 (Some 1%N)). split; [reflexivity|]. simpl. lia.
    + intros (x & Hx & _). vm_compute in Hx. discriminate.
  - exists (mkDailyStat 1 1 (Some 2%N)). split; [vm_compute; reflexivity|].
    simpl. lia.
Defined.

(** X15.  After a reset the ledger and the review state are empty, and the
    first grade that follows, of a card whose identifier is not [__proto__],
    leaves, in every time zone, a ledger with today's entry alone (one item
    seen, streak 1) and a review state with the graded card alone. *)
Theorem first_grade_after_reset
  (tz : JsDate.TimeZone) (q : QA) (e : Ease) (now key : Z) (st : Store) :
  question_id q <> JsObject.PROTO ->
  Progress.mark tz q e now key (Toolbar.resetProgress st)
  = mkStore
      {[ key := mkDailyStat 1 (if decide (e = Hard) then 0 else 1) (Some 1%N) ]}
      {[ question_id q := mkSrsEntry e now ]}.
Proof.
  intros Hproto.
  unfold Progress.mark, Progress.bumpProgress, Toolbar.resetProgress.
  cbn [srs progress].
  f_equal.
  - unfold Progress.bump. rewrite lookup_empty. simpl.
    rewrite insert_empty.
    rewrite streak_walk_unfold, iso_date_parse, lookup_singleton_eq. simpl.
    rewrite streak_walk_unfold, lookup_singleton_ne
      by (pose proof (iso_date_previous_lt tz key); lia).
    apply map_eq. intros d. destruct (decide (d = key)) as [->|Hd].
    + rewrite lookup_alter_eq, !lookup_singleton_eq. simpl. by destruct e.
    + by rewrite lookup_alter_ne, !lookup_singleton_ne.
  - unfold JsObject.assign. rewrite decide_False by done.
    apply insert_empty.
Qed.

Lemma first_grade_after_reset_witness :
  Progress.mark Samples.toronto_2026 Samples.card_hard Hard
    Samples.tuesday_morning 20760 (Toolbar.resetProgress Samples.gap_store)
  = mkStore {[ 20760 := mkDailyStat 1 0 (Some 1%N) ]}
            {[ "B-001-001-001" := mkSrsEntry Hard Samples.tuesday_morning ]}.
Proof.
  apply (first_grade_after_reset Samples.toronto_2026 Samples.card_hard Hard
           Samples.tuesday_morning 20760 Samples.gap_store).
  vm_compute. discriminate.
Defined.

(** ** The views *)

Section ViewFacts.
Import FlashcardsView.

Lemma mark_index tz ordered e now key v st :
  (index v < length ordered)%nat ->
  exists q,
    ordered !! index v = Some q
    /\ mark tz ordered e now key (v, st)
       = (mkView ((index v + 1) mod length ordered) false,
          Progress.mark tz q e now key st).
Proof.
  intros Hi. destruct (lookup_lt_is_Some_2 ordered (index v) Hi) as [q Hq].
  exists q. split; [done|]. unfold mark, current. simpl. by rewrite Hq.
Qed.

Lemma run_index tz ordered grades v st :
  (index v < length ordered)%nat ->
  index (foldl (fun vs g => mark tz ordered g.1.1 g.1.2 g.2 vs) (v, st) grades).1
  = ((index v + length grades) mod length ordered)%nat.
Proof.
  revert v st. induction grades as [|g grades IH]; intros v st Hi; simpl.
  - rewrite Nat.add_0_r. by rewrite Nat.mod_small.
  - destruct (mark_index tz ordered g.1.1 g.1.2 g.2 v st Hi) as (q & _ & ->).
    rewrite IH; simpl.
    + rewrite Nat.Div0.add_mod_idemp_l. f_equal. lia.
    + apply Nat.mod_upper_bound. lia.
Qed.

(** Without wrapping around, a run writes the grades on the cards that
    follow the current one, in their order. *)
Lemma run_srs tz ordered grades v st :
  (index v + length grades <= length ordered)%nat ->
  srs (foldl (fun vs g => mark tz ordered g.1.1 g.1.2 g.2 vs) (v, st) grades).2
  = foldl (fun m qg => JsObject.assign (question_id qg.1)
                       (mkSrsEntry qg.2.1.1 qg.2.1.2) m)
          (srs st) (zip (drop (index v) ordered) grades).
Proof.
  revert v st. induction grades as [|g grades IH]; intros v st Hlen; simpl.
  - by destruct (drop (index v) ordered).
  - simpl in Hlen.
    destruct (mark_index tz ordered g.1.1 g.1.2 g.2 v st ltac:(lia))
      as (q & Hq & ->).
    rewrite (drop_S _ _ _ Hq). simpl.
    destruct (decide (index v + 1 = length ordered)%nat) as [E|E].
    + assert (grades = []) as -> by (destruct grades; [done|simpl in Hlen; lia]).
      simpl. by rewrite drop_ge by lia.
    + rewrite IH; simpl; rewrite Nat.mod_small by lia.
      * by replace (index v + 1)%nat with (S (index v)) by lia.
      * lia.
Qed.

Lemma fold_insert_lookup (m : gmap string SrsEntry)
  (l : list (QA * (Ease * Z * Z))) t q g :
  NoDup (question_id <$> l.*1) ->
  l !! t = Some (q, g) ->
  question_id q <> JsObject.PROTO ->
  foldl (fun m qg => JsObject.assign (question_id qg.1)
                       (mkSrsEntry qg.2.1.1 qg.2.1.2) m) m l
    !! question_id q
  = Some (mkSrsEntry g.1.1 g.1.2).
Proof.
  intros Hnd Ht Hproto.
  assert (forall (l : list (QA * (Ease * Z * Z)))
                 (m : gmap string SrsEntry) (k : string),
    k ∉ question_id <$> l.*1 ->
    foldl (fun m qg => JsObject.assign (question_id qg.1)
                       (mkSrsEntry qg.2.1.1 qg.2.1.2) m) m l
      !! k = m !! k) as Hother.
  { clear. induction l as [|[q' g'] l IH]; intros m k Hk; simpl; [done|].
    simpl in Hk. apply not_elem_of_cons in Hk as [Hk1 Hk2].
    rewrite IH by done. by apply assign_lookup_ne. }
  revert m t Hnd Ht. induction l as [|[q' g'] l IH]; intros m t Hnd Ht.
  - by rewrite lookup_nil in Ht.
  - simpl in Hnd. apply NoDup_cons in Hnd as [Hq' Hnd]. destruct t as [|t]; simpl in *.
    + injection Ht as -> ->. rewrite Hother by done. by apply assign_lookup.
    + by apply (IH _ t).
Qed.

Lemma filter_none {A} (P : A -> Prop) `{!forall x, Decision (P x)} (l : list A) :
  (forall x, x ∈ l -> ~ P x) -> filter P l = [].
Proof.
  induction l as [|x l IH]; intros Hno; [done|].
  rewrite filter_cons_False by apply Hno, list_elem_of_here.
  apply IH. intros y Hy. by apply Hno, list_elem_of_further.
Qed.

Lemma filter_all {A} (P : A -> Prop) `{!forall x, Decision (P x)} (l : list A) :
  (forall x, x ∈ l -> P x) -> filter P l = l.
Proof.
  induction l as [|x l IH]; intros Hall; [done|].
  rewrite filter_cons_True by apply Hall, list_elem_of_here.
  rewrite IH; [done|]. intros y Hy. by apply Hall, list_elem_of_further.
Qed.

End ViewFacts.

(** X16.  The index of the flashcard view stays inside the deck: after any
    run of grades it is the start index plus the number of grades, modulo
    the size of the deck, so a round of as many grades as the deck has cards
    comes back to the card it started from.  When the cards of the deck have
    distinct identifiers, a round started at the first card writes on each
    card whose identifier is not [__proto__] the grade given at its turn. *)
Theorem flashcard_round
  (tz : JsDate.TimeZone) (ordered : list QA) (grades : list (Ease * Z * Z))
  (v : FlashcardsView.View) (st : Store) :
  (FlashcardsView.index v < length ordered)%nat ->
  let final :=
    foldl (fun vs g => FlashcardsView.mark tz ordered g.1.1 g.1.2 g.2 vs)
          (v, st) grades in
  FlashcardsView.index final.1
  = ((FlashcardsView.index v + length grades) mod length ordered)%nat
  /\ (FlashcardsView.index final.1 < length ordered)%nat
  /\ (length grades = length ordered ->
      FlashcardsView.index final.1 = FlashcardsView.index v)
  /\ (FlashcardsView.index v = 0%nat ->
      length grades = length ordered ->
      NoDup (question_id <$> ordered) ->
      forall t q g,
        ordered !! t = Some q -> grades !! t = Some g ->
        question_id q <> JsObject.PROTO ->
        srs final.2 !! question_id q = Some (mkSrsEntry g.1.1 g.1.2)).
Proof.
  intros Hi final.
  pose proof (run_index tz ordered grades v st Hi) as Hidx.
  split; [exact Hidx|]. split; [|split].
  - unfold final. rewrite Hidx. apply Nat.mod_upper_bound. lia.
  - intros Hlen. unfold final. rewrite Hidx, Hlen.
    rewrite <- (Nat.mul_1_l (length ordered)) at 1.
    rewrite Nat.Div0.mod_add. by apply Nat.mod_small.
  - intros H0 Hlen Hnd t q g Hq Hg Hproto. unfold final.
    rewrite (run_srs tz ordered grades v st) by lia.
    rewrite H0, drop_0.
    apply (fold_insert_lookup _ _ t).
    + rewrite fst_zip by lia. done.
    + rewrite lookup_zip_with, Hq. simpl. by rewrite Hg.
    + done.
Qed.

Lemma flashcard_round_witness :
  FlashcardsView.index
    (foldl (fun vs g => FlashcardsView.mark Samples.utc_zone Samples.two_cards
                          g.1.1 g.1.2 g.2 vs)
       (FlashcardsView.mkView 0 false, mkStore ∅ ∅)
       [(Good, Samples.tuesday_morning, 20760);
        (Hard, Samples.tuesday_morning + 5000, 20760)]).1 = 0%nat
  /\ srs
       (foldl (fun vs g => FlashcardsView.mark Samples.utc_zone
                             Samples.two_cards g.1.1 g.1.2 g.2 vs)
          (FlashcardsView.mkView 0 false, mkStore ∅ ∅)
          [(Good, Samples.tuesday_morning, 20760);
           (Hard, Samples.tuesday_morning + 5000, 20760)]).2
       !! "B-001-001-002"
     = Some (mkSrsEntry Hard (Samples.tuesday_morning + 5000)).
Proof.
  destruct (flashcard_round Samples.utc_zone Samples.two_cards
              [(Good, Samples.tuesday_morning, 20760);
               (Hard, Samples.tuesday_morning + 5000, 20760)]
              (FlashcardsView.mkView 0 false) (mkStore ∅ ∅)
              ltac:(simpl; lia)) as (_ & _ & Hround & Hgrades).
  split.
  - apply Hround. reflexivity.
  - apply (Hgrades eq_refl eq_refl
             ltac:(simpl; apply NoDup_cons; split;
                   [by intros ?%list_elem_of_singleton|apply NoDup_singleton])
             1%nat Samples.card_easy
             (Hard, Samples.tuesday_morning + 5000, 20760) eq_refl eq_refl).
    vm_compute. discriminate.
Defined.

(** X17.  The options shown for a question are its four answers in some
    order: there are four of them and the correct answer is among them. *)
Theorem options_offer_correct_answer
  (rng : nat -> Q) (lang : Lang) (q : QA) :
  Shuffle.unit_draws rng ->
  QuizView.options rng lang q ≡ₚ QuizView.answers_of lang q
  /\ length (QuizView.options rng lang q) = 4%nat
  /\ Quiz.good lang q ∈ QuizView.options rng lang q.
Proof.
  intros Hr. pose proof (shuffle_perm rng (QuizView.answers_of lang q) Hr) as Hp.
  split; [exact Hp|]. split.
  - unfold QuizView.options. rewrite (Permutation_length Hp). by destruct lang.
  - unfold QuizView.options. rewrite Hp. destruct lang; apply list_elem_of_here.
Qed.

Lemma options_offer_correct_answer_witness :
  QuizView.options Samples.quarters FR Samples.card_hard
    ≡ₚ QuizView.answers_of FR Samples.card_hard
  /\ length (QuizView.options Samples.quarters FR Samples.card_hard) = 4%nat
  /\ Quiz.good FR Samples.card_hard
     ∈ QuizView.options Samples.quarters FR Samples.card_hard.
Proof.
  apply options_offer_correct_answer. exact quarters_unit_draws.
Defined.

(** X18.  The number of correct answers that the result summary shows is
    the number that the submission adds to the ledger, and it is at most the
    number of questions of the quiz. *)
Theorem summary_matches_ledger
  (lang : Lang) (answers : gmap string string) (picked : list QA) :
  QuizView.summary_correct lang answers picked
  = Z.of_N (Quiz.count_correct lang answers picked)
  /\ (Quiz.count_correct lang answers picked <= N.of_nat (length picked))%N.
Proof.
  unfold QuizView.summary_correct.
  rewrite results_correct_count, count_correct_filter.
  pose proof (length_filter (fun q => answers !! question_id q
                                       = Some (Quiz.good lang q)) picked).
  split; lia.
Qed.

(** X19.  Choosing an option for a question answers that question and
    leaves the answers of the questions of other identifiers alone; a quiz
    of 1 to 200 questions in which every question has its correct answer
    chosen shows 100 %, and one with no answer chosen shows 0 %. *)
Theorem quiz_answers
  (lang : Lang) (answers : gmap string string) (picked : list QA) :
  (forall q opt q',
      QuizView.choose q opt answers !! question_id q = Some opt
      /\ (question_id q' <> question_id q ->
          QuizView.choose q opt answers !! question_id q'
          = answers !! question_id q'))
  /\ ((0 < length picked <= 200)%nat ->
      (forall q, q ∈ picked ->
                 answers !! question_id q = Some (Quiz.good lang q)) ->
      Quiz.count_correct lang answers picked = N.of_nat (length picked)
      /\ Percent.results_pct lang answers picked = Some 100)
  /\ ((0 < length picked <= 200)%nat ->
      Quiz.count_correct lang ∅ picked = 0%N
      /\ Percent.results_pct lang ∅ picked = Some 0).
Proof.
  split; [|split].
  - intros q opt q'. unfold QuizView.choose. split.
    + apply lookup_insert_eq.
    + intros Hne. by rewrite lookup_insert_ne.
  - intros Hlen Hall.
    split; [by rewrite count_correct_filter, filter_all|].
    unfold Percent.results_pct. rewrite results_correct_count, filter_all by done.
    destruct (pct_near_upto_200 (Z.of_nat (length picked))
                (Z.of_nat (length picked)) ltac:(lia) ltac:(lia))
      as (v & -> & Hv).
    f_equal.
    assert (Percent.exact_round (Z.of_nat (length picked))
              (Z.of_nat (length picked)) = 100) as Hex.
    { unfold Percent.exact_round.
      destruct (Z.of_nat (length picked)) as [|p|p] eqn:E; [lia| |lia].
      assert ((inject_Z (100 * Z.pos p) / inject_Z (Z.pos p) + (1 # 2)
               == 201 # 2)%Q) as ->.
      { unfold Qeq, Qdiv, Qmult, Qinv, Qplus, inject_Z. simpl. lia. }
      reflexivity. }
    destruct Hv as [->|(_ & _ & Hmod)]; [exact Hex|].
    destruct Hmod. apply Z.mod_mul. lia.
  - intros Hlen.
    assert (forall q, q ∈ picked ->
              ~ (∅ : gmap string string) !! question_id q
                = Some (Quiz.good lang q)) as Hnone
      by (intros q _; by rewrite lookup_empty).
    split; [by rewrite count_correct_filter, filter_none|].
    unfold Percent.results_pct.
    rewrite results_correct_count, filter_none by done.
    change (Z.of_nat (length (@nil QA))) with 0.
    destruct (pct_near_upto_200 0 (Z.of_nat (length picked))
                ltac:(lia) ltac:(lia)) as (v & -> & Hv).
    f_equal.
    assert (Percent.exact_round 0 (Z.of_nat (length picked)) = 0) as Hex.
    { unfold Percent.exact_round.
      destruct (Z.of_nat (length picked)) as [|p|p] eqn:E; [lia| |lia].
      assert ((inject_Z (100 * 0) / inject_Z (Z.pos p) + (1 # 2) == 1 # 2)%Q)
        as ->.
      { unfold Qeq, Qdiv, Qmult, Qinv, Qplus, inject_Z. simpl. lia. }
      reflexivity. }
    destruct Hv as [->|(_ & _ & Hmod)]; [exact Hex|].
    destruct Hmod. reflexivity.
Qed.

Lemma quiz_answers_witness :
  Quiz.count_correct FR ∅ Samples.two_cards = 0%N
  /\ Percent.results_pct FR ∅ Samples.two_cards = Some 0.
Proof.
  apply (proj2 (proj2 (quiz_answers FR ∅ Samples.two_cards))).
  simpl. lia.
Defined.

(** ** Sections *)

Section SectionFacts.
Import JsString Sections.

Lemma prefix_nil s : String.prefix EmptyString s = true.
Proof. by destruct s. Qed.

Lemma prefix_app a b : String.prefix a (String.append a b) = true.
Proof.
  induction a as [|c a IH]; [apply prefix_nil|].
  change (String.append (String c a) b) with (String c (String.append a b)).
  simpl. by destruct (ascii_dec c c).
Qed.

Lemma prefix_refl a : String.prefix a a = true.
Proof. induction a as [|c a IH]; [done|]. simpl. by destruct (ascii_dec c c). Qed.

Lemma prefix_app_both a x y :
  String.prefix x y = true ->
  String.prefix (String.append a x) (String.append a y) = true.
Proof.
  intros H. induction a as [|c a IH]; [done|].
  change (String.append (String c a) x) with (String c (String.append a x)).
  change (String.append (String c a) y) with (String c (String.append a y)).
  simpl. by destruct (ascii_dec c c).
Qed.

Lemma span_app p s a b : span p s = (a, b) -> s = String.append a b.
Proof.
  revert a b. induction s as [|c s IH]; intros a b; simpl.
  - by intros [= <- <-].
  - destruct (p c).
    + destruct (span p s) as [a' b'] eqn:E. intros [= <- <-].
      by rewrite (IH a' b' eq_refl).
    + by intros [= <- <-].
Qed.

Lemma run_then_dash_app p s a rest :
  run_then_dash p s = Some (a, rest) ->
  s = String.append a (String DASH rest).
Proof.
  unfold run_then_dash. destruct (span p s) as [a' b'] eqn:E.
  destruct a' as [|c a']; [done|]. destruct b' as [|d b']; [done|].
  destruct (Ascii.eqb_spec d DASH) as [->|]; [|done].
  intros [= <- <-]. by apply (span_app p).
Qed.

Lemma match_prefix_prefix id m :
  match_prefix id = Some m -> String.prefix m id = true.
Proof.
  unfold match_prefix.
  destruct (run_then_dash is_word id) as [[w r1]|] eqn:E1; [|done].
  destruct (run_then_dash is_digit r1) as [[d1 r2]|] eqn:E2; [|done].
  destruct (run_then_dash is_digit r2) as [[d2 r3]|] eqn:E3; [|done].
  intros [= <-].
  apply run_then_dash_app in E1 as ->, E2 as ->, E3 as ->.
  apply prefix_app_both.
  change (String DASH (String.append d1 (String DASH d2)))
    with (String.append (String DASH EmptyString)
            (String.append d1 (String DASH d2))).
  change (String DASH (String.append d1
            (String DASH (String.append d2 (String DASH r3)))))
    with (String.append (String DASH EmptyString)
            (String.append d1 (String DASH (String.append d2 (String DASH r3))))).
  apply prefix_app_both, prefix_app_both.
  change (String DASH d2) with (String.append (String DASH EmptyString) d2).
  change (String DASH (String.append d2 (String DASH r3)))
    with (String.append (String DASH EmptyString)
            (String.append d2 (String DASH r3))).
  apply prefix_app_both, prefix_app.
Qed.

Lemma join_take_prefix sep n ps :
  String.prefix (join sep (take n ps)) (join sep ps) = true.
Proof.
  revert n. induction ps as [|p ps IH]; intros n.
  - rewrite take_nil. apply prefix_nil.
  - destruct n as [|n]; [apply prefix_nil|]. simpl take.
    destruct ps as [|q ps].
    + rewrite take_nil. simpl. apply prefix_refl.
    + destruct n as [|n].
      * simpl. apply prefix_app.
      * specialize (IH (S n)). simpl take in *.
        change (join sep (p :: q :: take n ps))
          with (String.append p (String sep (join sep (q :: take n ps)))).
        change (join sep (p :: q :: ps))
          with (String.append p (String sep (join sep (q :: ps)))).
        apply prefix_app_both. simpl. by destruct (ascii_dec sep sep).
Qed.

Lemma section_of_prefix q : String.prefix (section_of q) (question_id q) = true.
Proof.
  unfold section_of.
  destruct (match_prefix (question_id q)) as [m|] eqn:E.
  - by apply match_prefix_prefix.
  - unfold first_three.
    rewrite <- (join_split DASH (question_id q)) at 2.
    apply join_take_prefix.
Qed.

Lemma collect_spec (qas : list QA) (acc : list string) x :
  x ∈ foldl (fun pfx q => set_add (section_of q) pfx) acc qas
  <-> x ∈ acc \/ exists q, q ∈ qas /\ section_of q = x.
Proof.
  revert acc. induction qas as [|q qas IH]; intros acc; simpl.
  - split; [by left|]. intros [H|(q & Hq & _)]; [done|by apply elem_of_nil in Hq].
  - rewrite IH. unfold set_add. split.
    + intros [H|(q' & Hq' & E)].
      * destruct (bool_decide_reflect (section_of q ∈ acc)); [by left|].
        apply elem_of_app in H as [H|H]; [by left|].
        apply list_elem_of_singleton in H as ->. right. exists q.
        split; [apply list_elem_of_here|done].
      * right. exists q'. split; [by apply list_elem_of_further|done].
    + intros [H|(q' & Hq' & E)].
      * left. destruct (bool_decide_reflect (section_of q ∈ acc)); [done|].
        apply elem_of_app. by left.
      * apply elem_of_cons in Hq' as [->|Hq'].
        -- left. destruct (bool_decide_reflect (section_of q ∈ acc));
             [by subst|].
           apply elem_of_app. right. subst. by apply list_elem_of_singleton.
        -- right. by exists q'.
Qed.

Lemma collect_NoDup (qas : list QA) (acc : list string) :
  NoDup acc -> NoDup (foldl (fun pfx q => set_add (section_of q) pfx) acc qas).
Proof.
  revert acc. induction qas as [|q qas IH]; intros acc Hnd; simpl; [done|].
  apply IH. unfold set_add.
  destruct (bool_decide_reflect (section_of q ∈ acc)) as [|Hn]; [done|].
  apply NoDup_app. split; [done|]. split; [|apply NoDup_singleton].
  intros x Hx ->%list_elem_of_singleton. done.
Qed.

Lemma sort_perm_any {A} (cmp : A -> A -> Z) (l : list A) :
  Flashcards.sort cmp l ≡ₚ l.
Proof.
  assert (forall x k, Flashcards.insert_stable cmp x k ≡ₚ x :: k) as Hins.
  { intros x k. induction k as [|y k IH]; simpl; [done|].
    destruct (0 <? cmp x y); [|done]. by rewrite IH, Permutation_swap. }
  induction l as [|x l IH]; simpl; [done|]. by rewrite Hins, IH.
Qed.

Lemma compare_le_trans a b c :
  String.compare a b <> Gt -> String.compare b c <> Gt ->
  String.compare a c <> Gt.
Proof.
  revert b c. induction a as [|x a IH]; intros [|y b] [|z c]; simpl; try done.
  unfold Ascii.compare.
  destruct (N.compare_spec (N_of_ascii x) (N_of_ascii y)) as [Exy|Hxy|Hxy];
    [|intros _|done];
    (destruct (N.compare_spec (N_of_ascii y) (N_of_ascii z)) as [Eyz|Hyz|Hyz];
     [|intros _|done]);
    destruct (N.compare_spec (N_of_ascii x) (N_of_ascii z)) as [Exz|Hxz|Hxz];
    try done; try lia.
  apply IH.
Qed.

Lemma sort_code_units_sorted (l : list string) :
  StronglySorted (fun a b => String.compare a b <> Gt)
    (Flashcards.sort code_unit_cmp l).
Proof.
  assert (forall x y, (0 <? code_unit_cmp x y) = false -> String.compare x y <> Gt)
    as H1 by (intros x y; unfold code_unit_cmp; by destruct (String.compare x y)).
  assert (forall x y, (0 <? code_unit_cmp x y) = true -> String.compare y x <> Gt)
    as H2.
  { intros x y. unfold code_unit_cmp. rewrite (String.compare_antisym x y).
    by destruct (String.compare y x). }
  assert (forall x k,
    StronglySorted (fun a b => String.compare a b <> Gt) k ->
    StronglySorted (fun a b => String.compare a b <> Gt)
      (Flashcards.insert_stable code_unit_cmp x k)) as Hins.
  { intros x k. induction 1 as [|y k Hk IH Hy]; simpl.
    - repeat constructor.
    - destruct (0 <? code_unit_cmp x y) eqn:E.
      + constructor; [done|].
        assert (Flashcards.insert_stable code_unit_cmp x k ≡ₚ x :: k) as ->.
        { clear. induction k as [|z k IH]; simpl; [done|].
          destruct (0 <? code_unit_cmp x z); [|done].
          by rewrite IH, Permutation_swap. }
        constructor; [by apply H2|done].
      + constructor; [by constructor|].
        constructor; [by apply H1|].
        eapply Forall_impl; [exact Hy|]. simpl. intros z Hz.
        eapply compare_le_trans; [by apply H1|done]. }
  induction l as [|x l IH]; simpl; [constructor|]. by apply Hins.
Qed.

Lemma sorted_strict (l : list string) :
  NoDup l ->
  StronglySorted (fun a b => String.compare a b <> Gt) l ->
  StronglySorted (fun a b => String.compare a b = Lt) l.
Proof.
  intros Hnd. induction 1 as [|x l Hl IH Hx]; [constructor|].
  apply NoDup_cons in Hnd as [Hx' Hnd]. constructor; [by apply IH|].
  rewrite Forall_forall in Hx |- *. intros y Hy. specialize (Hx y Hy).
  destruct (String.compare x y) eqn:E; [|done|done].
  apply String.compare_eq_iff in E as ->. done.
Qed.

End SectionFacts.

(** X20.  The sections offered are the prefixes of the questions of the
    bank and nothing else; the prefix of a question starts its identifier,
    so the question is among those that the section filter keeps for it:
    every section offered selects a question at least, and every question is
    selected by a section offered. *)
Theorem sections_select_the_bank (qas : list QA) :
  (forall s, s ∈ Sections.sections qas
             <-> exists q, q ∈ qas /\ Sections.section_of q = s)
  /\ (forall q, q ∈ qas ->
        String.prefix (Sections.section_of q) (question_id q) = true
        /\ q ∈ App.filtered (Sections.section_of q) qas)
  /\ (forall s, s ∈ Sections.sections qas -> App.filtered s qas <> []).
Proof.
  assert (forall s, s ∈ Sections.sections qas
             <-> exists q, q ∈ qas /\ Sections.section_of q = s) as H1.
  { intros s. unfold Sections.sections. rewrite sort_perm_any, collect_spec.
    split; [intros [H|H]; [by apply elem_of_nil in H|done]|by right]. }
  assert (forall q, q ∈ qas ->
        String.prefix (Sections.section_of q) (question_id q) = true
        /\ q ∈ App.filtered (Sections.section_of q) qas) as H2.
  { intros q Hq. pose proof (section_of_prefix q) as Hp. split; [done|].
    rewrite filtered_filter. by apply list_elem_of_filter. }
  split; [exact H1|]. split; [exact H2|].
  intros s (q & Hq & <-)%H1 E.
  destruct (H2 q Hq) as [_ Hin]. rewrite E in Hin. by apply elem_of_nil in Hin.
Qed.

Lemma sections_select_the_bank_witness :
  App.filtered "B-001-001" Samples.two_cards <> [].
Proof.
  apply (proj2 (proj2 (sections_select_the_bank Samples.two_cards))).
  vm_compute. apply list_elem_of_here.
Defined.

(** X21.  The list of sections has no duplicate and is in strictly
    ascending order of code units. *)
Theorem sections_sorted_nodup (qas : list QA) :
  NoDup (Sections.sections qas)
  /\ StronglySorted (fun a b => String.compare a b = Lt) (Sections.sections qas).
Proof.
  assert (NoDup (Sections.sections qas)) as Hnd.
  { unfold Sections.sections. rewrite sort_perm_any.
    apply collect_NoDup. constructor. }
  split; [exact Hnd|]. apply sorted_strict; [exact Hnd|].
  apply sort_code_units_sorted.
Qed.

(** ** Every order can be drawn *)

Section ShuffleReach.
Import DoubleShuffle.
Context {A : Type}.
Implicit Types a pre suf t : list A.

Lemma reach_upto_at bound i j :
  reach_upto bound = true -> (i <= bound)%nat -> (j <= i)%nat ->
  unit_double (draw_for i j) = true
  /\ rand_index (draw_for i j) i = Some j.
Proof.
  unfold reach_upto. rewrite forallb_forall. intros H Hi Hj.
  specialize (H i). rewrite in_seq in H. specialize (H ltac:(lia)).
  rewrite forallb_forall in H.
  specialize (H j). rewrite in_seq in H. specialize (H ltac:(lia)).
  unfold reach_at in H. apply andb_true_iff in H as [H1 H2].
  by apply bool_decide_eq_true in H2.
Qed.

Lemma reach_upto_63 : reach_upto 63 = true.
Proof. vm_compute. reflexivity. Qed.

Lemma double_loop_ext d1 d2 k a i :
  (forall m, (k <= m)%nat -> d1 m = d2 m) ->
  shuffle_loop d1 k a i = shuffle_loop d2 k a i.
Proof.
  revert k a. induction i as [|i IH]; intros k a H; simpl; [done|].
  rewrite (H k) by lia. destruct (rand_index (d2 k) (S i)); [|done].
  apply IH. intros m Hm. apply H. lia.
Qed.

Lemma double_loop_S draws k a i :
  shuffle_loop draws k a (S i)
  = match rand_index (draws k) (S i) with
    | Some j => shuffle_loop draws (S k) (Shuffle.swap a (S i) j) i
    | None => None
    end.
Proof. reflexivity. Qed.

Lemma swap_perm_any a i j : Shuffle.swap a i j ≡ₚ a.
Proof.
  destruct (decide (i < length a)%nat) as [Hi|Hi];
    [destruct (decide (j < length a)%nat) as [Hj|Hj]|].
  - by apply swap_perm.
  - unfold Shuffle.swap. by rewrite (lookup_ge_None_2 a j) by lia.
  - unfold Shuffle.swap. rewrite (lookup_ge_None_2 a i) by lia.
    by destruct (a !! j).
Qed.

Lemma double_loop_perm draws k a i t :
  shuffle_loop draws k a i = Some t -> t ≡ₚ a.
Proof.
  revert k a. induction i as [|i IH]; intros k a; simpl.
  - by intros [= ->].
  - destruct (rand_index (draws k) (S i)) as [j|]; [|done].
    intros H%IH. by rewrite H, swap_perm_any.
Qed.

Lemma swap_same a i : Shuffle.swap a i i = a.
Proof.
  unfold Shuffle.swap. destruct (a !! i) as [x|] eqn:E; [|done].
  by rewrite !(list_insert_id a i x E).
Qed.

Lemma swap_last_with pre1 y pre2 z suf :
  Shuffle.swap (pre1 ++ y :: pre2 ++ z :: suf)
       (length pre1 + S (length pre2)) (length pre1)
  = pre1 ++ z :: pre2 ++ y :: suf.
Proof.
  unfold Shuffle.swap.
  rewrite (list_lookup_middle pre1 _ y (length pre1)) by done.
  rewrite lookup_app_r by lia.
  replace (length pre1 + S (length pre2) - length pre1)%nat
    with (S (length pre2)) by lia.
  simpl. rewrite (list_lookup_middle pre2 suf z (length pre2)) by done.
  rewrite insert_app_r. simpl.
  rewrite <- (Nat.add_0_r (length pre2)) at 1. rewrite insert_app_r. simpl.
  rewrite <- (Nat.add_0_r (length pre1)) at 1. by rewrite insert_app_r.
Qed.

(** The loop, entered on the last place of [pre], can leave any
    arrangement of [pre] in front of [suf]. *)
Lemma double_loop_reach bound t :
  reach_upto bound = true ->
  forall pre suf k,
    (length pre <= S bound)%nat ->
    t ≡ₚ pre ->
    exists draws,
      (forall m, unit_double (draws m) = true)
      /\ shuffle_loop draws k (pre ++ suf) (length pre - 1) = Some (t ++ suf).
Proof.
  intros Hbound.
  induction t as [|y t IH] using rev_ind; intros pre suf k Hb Hp.
  - apply Permutation_nil_l in Hp as <-.
    exists (fun _ => S754_zero false). split; [by intros m|done].
  - destruct (decide (length t = 0%nat)) as [Ht|Ht].
    { apply nil_length_inv in Ht as ->. simpl in Hp.
      apply Permutation_singleton_l in Hp as <-.
      exists (fun _ => S754_zero false). split; [by intros m|done]. }
    assert (length pre = S (length t)) as Hlen
      by (rewrite <- (Permutation_length Hp), length_app; simpl; lia).
    assert (exists pre' j,
      (j <= length t)%nat /\ pre' ≡ₚ t
      /\ Shuffle.swap (pre ++ suf) (length t) j = pre' ++ y :: suf)
      as (pre' & j & Hj & Hp' & Hswap).
    { clear IH Hb. induction pre as [|z p _] using rev_ind; [done|].
      rewrite length_app in Hlen. simpl in Hlen.
      assert (length p = length t) as Hpt by lia.
      assert (y ∈ p ++ [z]) as Hy
        by (rewrite <- Hp; apply elem_of_app; right; apply list_elem_of_here).
      apply elem_of_app in Hy as [Hy|Hy].
      - apply list_elem_of_split in Hy as (p1 & p2 & ->).
        exists (p1 ++ z :: p2), (length p1). split; [|split].
        + rewrite <- Hpt, length_app. lia.
        + rewrite <- Permutation_middle.
          apply (Permutation_app_inv_r [y]).
          rewrite Hp. rewrite <- !app_assoc. simpl.
          rewrite <- !Permutation_middle. simpl.
          rewrite !app_nil_r. apply Permutation_swap.
        + rewrite <- Hpt, length_app. simpl.
          repeat (rewrite <- app_assoc; simpl).
          apply swap_last_with.
      - apply list_elem_of_singleton in Hy as ->.
        exists p, (length t). split; [lia|]. split.
        + symmetry. by apply (Permutation_app_inv_r [z]).
        + rewrite swap_same, <- app_assoc. done. }
    destruct (IH pre' (y :: suf) (S k)) as (draws' & Hr' & Hloop);
      [rewrite (Permutation_length Hp'); lia|by symmetry|].
    destruct (length t) as [|i] eqn:Hti; [done|].
    destruct (reach_upto_at bound (S i) j Hbound ltac:(lia) Hj) as (Hr0 & Hri).
    exists (fun m => if decide (m = k) then draw_for (S i) j else draws' m).
    split.
    + intros m. destruct (decide (m = k)); [done|apply Hr'].
    + rewrite Hlen.
      replace (S (S i) - 1)%nat with (S i) by lia.
      rewrite double_loop_S. cbv beta. rewrite decide_True by done.
      rewrite Hri, Hswap.
      rewrite (double_loop_ext _ draws' (S k)).
      * rewrite (Permutation_length Hp'), Hti in Hloop.
        replace (S i - 1)%nat with i in Hloop by lia.
        by rewrite Hloop, <- app_assoc.
      * intros m Hm. rewrite decide_False by lia. done.
Qed.

End ShuffleReach.

(** X22.  What [shuffle] can return for an array of up to 64 elements is
    every arrangement of it and nothing else: for each arrangement there is
    a run of values of [Math.random], binary64 values in [0, 1), on which
    [shuffle], its products rounded to binary64, returns it. *)
Theorem shuffle_reaches_every_order {A : Type} (xs ys : list A) :
  (length xs <= 64)%nat ->
  (exists draws,
      (forall k, DoubleShuffle.unit_double (draws k) = true)
      /\ DoubleShuffle.shuffle draws xs = Some ys)
  <-> ys ≡ₚ xs.
Proof.
  intros Hlen. split.
  - intros (draws & _ & H). by apply double_loop_perm in H.
  - intros Hp.
    destruct (double_loop_reach 63 ys reach_upto_63 xs [] 0%nat Hlen Hp)
      as (draws & Hr & Hloop).
    exists draws. split; [done|]. unfold DoubleShuffle.shuffle.
    by rewrite !app_nil_r in Hloop.
Qed.

Lemma shuffle_reaches_every_order_witness :
  exists draws,
    (forall k, DoubleShuffle.unit_double (draws k) = true)
    /\ DoubleShuffle.shuffle draws [10; 20; 30]%nat = Some [30; 10; 20]%nat.
Proof.
  apply (proj2 (shuffle_reaches_every_order [10; 20; 30]%nat [30; 10; 20]%nat
                  ltac:(simpl; lia))).
  change ([30; 10; 20]%nat) with ([30]%nat ++ [10; 20]%nat).
  change ([10; 20; 30]%nat) with ([10; 20]%nat ++ [30]%nat).
  apply Permutation_app_comm.
Defined.

(** X23.  A quiz never holds a question more often than the bank does: the
    questions left out complete the selection into an arrangement of the
    bank.  When the bank has no more questions than asked for, the quiz is
    an arrangement of the whole bank. *)
Theorem pick_within_bank (rng : nat -> Q) (qas : list QA) (n : nat) :
  Shuffle.unit_draws rng ->
  (exists rest, Quiz.pick rng qas n ++ rest ≡ₚ qas)
  /\ ((length qas <= n)%nat -> Quiz.pick rng qas n ≡ₚ qas).
Proof.
  intros Hr. pose proof (shuffle_perm rng qas Hr) as Hp. unfold Quiz.pick. split.
  - exists (drop (Nat.min n (length qas)) (Shuffle.shuffle rng qas)).
    by rewrite take_drop.
  - intros Hn. rewrite take_ge; [done|].
    rewrite (Permutation_length Hp). lia.
Qed.

Lemma pick_within_bank_witness :
  Quiz.pick Samples.quarters Samples.two_cards 5 ≡ₚ Samples.two_cards.
Proof.
  apply (proj2 (pick_within_bank Samples.quarters Samples.two_cards 5
                  quarters_unit_draws)).
  simpl. lia.
Defined.

Lemma parsed_id_nonempty text r :
  r ∈ Parser.parseCSVSemicolon text -> question_id r <> EmptyString.
Proof.
  rewrite parse_lines_form.
  destruct (List.filter Parser.nonblank (JsString.split_lines text))
    as [|h rest]; [by intros ?%elem_of_nil|].
  intros (line & _ & Hline)%list_elem_of_omap.
  unfold Parser.row_of in Hline.
  destruct (_ <? _)%nat; [done|].
  destruct (0 <? String.length _)%nat eqn:E; [|done].
  injection Hline as <-. simpl. intros Hid. by rewrite Hid in E.
Qed.

(** X24.  An import never empties the bank and keeps it well formed: a file
    that parses to no record leaves the bank as it was, any other file
    replaces the bank by its records, and when every question of the bank
    had a question_id that is not empty, so has every question after the
    import. *)
Theorem import_keeps_bank (txt : string) (qas : list QA) :
  (Parser.parseCSVSemicolon txt = [] -> Toolbar.onFilePick txt qas = qas)
  /\ (Parser.parseCSVSemicolon txt <> [] ->
      Toolbar.onFilePick txt qas = Parser.parseCSVSemicolon txt)
  /\ (qas <> [] -> Toolbar.onFilePick txt qas <> [])
  /\ (Forall (fun r => question_id r <> EmptyString) qas ->
      Forall (fun r => question_id r <> EmptyString) (Toolbar.onFilePick txt qas)).
Proof.
  unfold Toolbar.onFilePick.
  destruct (Parser.parseCSVSemicolon txt) as [|r rs] eqn:E; simpl.
  - repeat split; done.
  - split; [done|]. split; [done|]. split; [done|].
    intros _. apply Forall_forall. intros x Hx.
    apply (parsed_id_nonempty txt). by rewrite E.
Qed.

Lemma import_keeps_bank_witness :
  Toolbar.onFilePick "no record here" Samples.two_cards = Samples.two_cards.
Proof.
  apply (proj1 (import_keeps_bank "no record here" Samples.two_cards)).
  vm_compute. reflexivity.
Defined.

Lemma sane_upto_199 : Percent.all_upto PercentChecks.sane_at 199 = true.
Proof. vm_compute. reflexivity. Qed.

(** X25.  For a total of 1 to 199 and no more correct than the total, the
    percentage displayed lies between 0 and 100; it is 100 only when
    everything is correct and 0 only when nothing is.  So it is for a day of
    the history with up to 199 items seen. *)
Theorem percent_sane :
  (forall correct total,
      0 < total <= 199 -> 0 <= correct <= total ->
      exists v,
        Percent.pct correct total = Some v
        /\ 0 <= v <= 100
        /\ (v = 100 <-> correct = total)
        /\ (v = 0 <-> correct = 0))
  /\ (forall it,
        (0 < seen it <= 199)%N -> (correct it <= seen it)%N ->
        exists v,
          Percent.history_pct it = Some v
          /\ 0 <= v <= 100
          /\ (v = 100 <-> correct it = seen it)
          /\ (v = 0 <-> correct it = 0%N)).
Proof.
  assert (forall correct total,
      0 < total <= 199 -> 0 <= correct <= total ->
      exists v,
        Percent.pct correct total = Some v
        /\ 0 <= v <= 100
        /\ (v = 100 <-> correct = total)
        /\ (v = 0 <-> correct = 0)) as H.
  { intros correct total Ht Hc.
    pose proof (all_upto_at PercentChecks.sane_at 199 correct total
                  sane_upto_199 Ht Hc) as Hs.
    unfold PercentChecks.sane_at in Hs.
    destruct (Percent.pct correct total) as [v|]; [|done].
    exists v. split; [done|].
    apply andb_true_iff in Hs as [Hs H4]. apply andb_true_iff in Hs as [Hs H3].
    apply andb_true_iff in Hs as [H1 H2].
    apply Z.leb_le in H1, H2. apply Bool.eqb_prop in H3, H4.
    split; [lia|]. split.
    - rewrite <- !Z.eqb_eq. by rewrite H3.
    - rewrite <- !Z.eqb_eq. by rewrite H4. }
  split; [exact H|].
  intros it Hs Hc. unfold Percent.history_pct.
  destruct (H (Z.of_N (correct it)) (Z.of_N (seen it)) ltac:(lia) ltac:(lia))
    as (v & Hv & Hr & H100 & H0).
  exists v. split; [done|]. split; [done|]. split; [rewrite H100|rewrite H0]; lia.
Qed.

Lemma percent_sane_witness :
  exists v,
    Percent.pct 29 30 = Some v
    /\ 0 <= v <= 100
    /\ (v = 100 <-> 29 = 30)
    /\ (v = 0 <-> 29 = 0).
Proof.
  apply (proj1 percent_sane); lia.
Defined.

Section DateKeyFacts.
Import DateKey.

Lemma compare_refl (s : string) : String.compare s s = Eq.
Proof.
  induction s as [|c s IH]; simpl; [done|].
  unfold Ascii.compare. by rewrite N.compare_refl.
Qed.

Lemma compare_lt_trans (a b c : string) :
  String.compare a b = Lt -> String.compare b c = Lt -> String.compare a c = Lt.
Proof.
  revert b c. induction a as [|x a IH]; intros [|y b] [|z c]; simpl; try done.
  destruct (Ascii.compare x y) eqn:Exy; try done.
  - apply Ascii.compare_eq_iff in Exy as ->.
    destruct (Ascii.compare y z); try done. apply IH.
  - intros _. destruct (Ascii.compare y z) eqn:Eyz; try done.
    + apply Ascii.compare_eq_iff in Eyz as <-. by rewrite Exy.
    + intros _.
      unfold Ascii.compare in *.
      rewrite N.compare_lt_iff in Exy, Eyz.
      assert (N_of_ascii x < N_of_ascii z)%N as H by lia.
      apply N.compare_lt_iff in H. by rewrite H.
Qed.

Lemma compare_app_same_length (a a' x x' : string) :
  String.length a = String.length a' ->
  String.compare (String.append a x) (String.append a' x')
  = match String.compare a a' with
    | Eq => String.compare x x'
    | c => c
    end.
Proof.
  revert a'. induction a as [|c a IH]; intros [|c' a']; simpl; try done.
  intros [= Hl]. destruct (Ascii.compare c c'); try done. by apply IH.
Qed.

Lemma rising_at f len lo count n :
  rising f len lo count = true -> (lo <= n < lo + count)%N ->
  String.length (f n) = len /\ String.length (f (n + 1)%N) = len
  /\ String.compare (f n) (f (n + 1)%N) = Lt.
Proof.
  unfold rising. rewrite forallb_forall. intros H Hn.
  specialize (H n). rewrite in_map_iff in H.
  assert (exists x, N.of_nat x = n
                    /\ In x (seq (N.to_nat lo) (N.to_nat count))) as Hx.
  { exists (N.to_nat n). rewrite in_seq. lia. }
  specialize (H Hx).
  apply andb_true_iff in H as [H H3]. apply andb_true_iff in H as [H1 H2].
  apply Nat.eqb_eq in H1, H2.
  by destruct (String.compare (f n) (f (n + 1)%N)).
Qed.

Lemma rising_lt f len lo count n n' :
  rising f len lo count = true ->
  (lo <= n)%N -> (n < n')%N -> (n' <= lo + count)%N ->
  String.compare (f n) (f n') = Lt.
Proof.
  intros H Hlo Hlt.
  assert (exists k : nat, n' = (n + 1 + N.of_nat k)%N) as [k ->].
  { exists (N.to_nat (n' - n - 1)). lia. }
  clear Hlt. induction k as [|k IH]; intros Hhi.
  - rewrite N.add_0_r. apply (rising_at f len lo count n H). lia.
  - apply (compare_lt_trans _ (f (n + 1 + N.of_nat k)%N)); [apply IH; lia|].
    replace (n + 1 + N.of_nat (S k))%N with (n + 1 + N.of_nat k + 1)%N by lia.
    apply (rising_at f len lo count _ H). lia.
Qed.

Lemma rising_compare f len lo count n n' :
  rising f len lo count = true ->
  (lo <= n <= lo + count)%N -> (lo <= n' <= lo + count)%N ->
  String.compare (f n) (f n') = N.compare n n'.
Proof.
  intros H Hn Hn'. destruct (N.compare_spec n n') as [->|Hlt|Hgt].
  - apply compare_refl.
  - apply (rising_lt f len lo count); [done|lia..].
  - rewrite String.compare_antisym.
    rewrite (rising_lt f len lo count n' n); [done|done|lia..].
Qed.

Lemma rising_length f len lo count n :
  rising f len lo count = true -> (0 < count)%N ->
  (lo <= n <= lo + count)%N -> String.length (f n) = len.
Proof.
  intros H Hc Hn. destruct (decide (n = lo + count)%N) as [->|Hne].
  - replace (lo + count)%N with (lo + count - 1 + 1)%N by lia.
    apply (rising_at f len lo count (lo + count - 1)%N H). lia.
  - apply (rising_at f len lo count n H). lia.
Qed.

Lemma years_rising : rising to_string 4 1000 8999 = true.
Proof. vm_compute. reflexivity. Qed.

Lemma months_rising :
  rising (fun m => padStart2 (to_string (m + 1)%N)) 2 0 11 = true.
Proof. vm_compute. reflexivity. Qed.

Lemma days_rising : rising (fun d => padStart2 (to_string d)) 2 1 30 = true.
Proof. vm_compute. reflexivity. Qed.

Lemma length_append (a b : string) :
  String.length (String.append a b) = (String.length a + String.length b)%nat.
Proof. induction a as [|c a IH]; simpl; [done|by rewrite IH]. Qed.

End DateKeyFacts.

(** X26.  For years of four digits the key of a day has ten characters, and
    the keys of two days compare, as strings, the way the days do: distinct
    days have distinct keys and a sort of the keys is chronological. *)
Theorem day_keys_chronological (y m d y' m' d' : N) :
  (1000 <= y <= 9999)%N -> (m <= 11)%N -> (1 <= d <= 31)%N ->
  (1000 <= y' <= 9999)%N -> (m' <= 11)%N -> (1 <= d' <= 31)%N ->
  String.length (DateKey.todayKey y m d) = 10%nat
  /\ String.compare (DateKey.todayKey y m d) (DateKey.todayKey y' m' d')
     = DateKey.date_compare (y, m, d) (y', m', d')
  /\ (DateKey.todayKey y m d = DateKey.todayKey y' m' d' ->
      (y, m, d) = (y', m', d')).
Proof.
  intros Hy Hm Hd Hy' Hm' Hd'.
  pose proof (rising_length _ _ _ _ y years_rising ltac:(lia) ltac:(lia)) as Ly.
  pose proof (rising_length _ _ _ _ y' years_rising ltac:(lia) ltac:(lia)) as Ly'.
  pose proof (rising_length _ _ _ _ m months_rising ltac:(lia) ltac:(lia)) as Lm.
  pose proof (rising_length _ _ _ _ m' months_rising ltac:(lia) ltac:(lia)) as Lm'.
  pose proof (rising_length _ _ _ _ d days_rising ltac:(lia) ltac:(lia)) as Ld.
  pose proof (rising_compare _ _ _ _ y y' years_rising ltac:(lia) ltac:(lia)) as Cy.
  pose proof (rising_compare _ _ _ _ m m' months_rising ltac:(lia) ltac:(lia)) as Cm.
  pose proof (rising_compare _ _ _ _ d d' days_rising ltac:(lia) ltac:(lia)) as Cd.
  cbv beta in Lm, Lm', Cm, Ld, Cd.
  assert (String.compare (DateKey.todayKey y m d) (DateKey.todayKey y' m' d')
          = DateKey.date_compare (y, m, d) (y', m', d')) as Hcmp.
  { unfold DateKey.todayKey, DateKey.date_compare. simpl fst. simpl snd.
    rewrite compare_app_same_length by congruence. rewrite Cy.
    destruct (N.compare y y'); try done.
    change (String.compare (String "-" ?a) (String "-" ?b))
      with (String.compare a b).
    rewrite compare_app_same_length by congruence. rewrite Cm.
    destruct (N.compare m m'); try done. }
  split; [|split; [exact Hcmp|]].
  - unfold DateKey.todayKey.
    rewrite length_append. simpl. rewrite length_append. simpl.
    rewrite Ly, Lm, Ld. reflexivity.
  - intros Heq. rewrite Heq, compare_refl in Hcmp.
    unfold DateKey.date_compare in Hcmp. simpl in Hcmp.
    destruct (N.compare_spec y y'); try done.
    destruct (N.compare_spec m m'); try done.
    destruct (N.compare_spec d d'); try done.
    congruence.
Qed.

Lemma day_keys_chronological_witness :
  String.compare (DateKey.todayKey 2026 9 31) (DateKey.todayKey 2026 10 1) = Lt.
Proof.
  apply (proj1 (proj2 (day_keys_chronological 2026 9 31 2026 10 1
    ltac:(lia) ltac:(lia) ltac:(lia) ltac:(lia) ltac:(lia) ltac:(lia)))).
Defined.
